(** * Robot kiosk: motor store, view fan-out, dial dialog, navigation, battery

    A shallow embedding of [robot_kiosk.py].  The [RobotKiosk] object is a
    record of the attributes the handlers read and write; every handler is a
    function in a small state-and-exception monad, because Python mutates
    [self] in place and a [KeyError] leaves the mutations made so far.

    Qt widgets are external to the repository.  They are modelled by the part
    of their documented behaviour the handlers rely on: a [QAbstractSlider]
    ([QSlider], [QDial]) bounds every value to its range, a [QStackedWidget]
    shows its current page and hides the others, a modal [QDialog.exec_]
    returns [Accepted] or [Rejected].  A Python [int] handed to a Qt method
    goes through the binding, which converts it to a C [int] and raises
    [OverflowError] when it does not fit; values that Qt produces itself (a
    slider position, a dial position, a button property) are C [int]s
    already.

    Besides the handlers of the motor store, the file covers the slots the
    widgets of the motor page are connected to, the uptime and connection
    timers, and what [CircularProgress.paintEvent] draws. *)

From Stdlib Require Import ZArith Floats Ascii String Lia.
From stdpp Require Import base option list gmap strings pretty.

Set Warnings "-inexact-float".

#[local] Open Scope string_scope.
#[local] Open Scope Z_scope.

(** ** Python values and exceptions *)

(** Motor values are Python [int]s: unbounded integers.  [int(v)] on an
    [int] is the identity; every caller in the file passes an [int] (a Qt
    signal argument, [QDial.value()], a literal). *)
Definition int (v : Z) : Z := v.

(** [max(lo, min(hi, v))], the clamping idiom of the source. *)
Definition clamp (lo hi v : Z) : Z := Z.max lo (Z.min hi v).

Inductive Exn : Type :=
| KeyError (key : string)
| OverflowError.

(** The result of a call outside the kiosk object: a value or an
    exception. *)
Inductive Result (A : Type) : Type :=
| Ok (a : A)
| Err (e : Exn).
Arguments Ok {A} a.
Arguments Err {A} e.

#[global] Instance Result_ret : MRet Result := fun A a => Ok a.

#[global] Instance Result_bind : MBind Result := fun A B f r =>
  match r with
  | Ok a => f a
  | Err e => Err e
  end.

(** The range of a C [int], to which the binding converts the integer
    arguments of Qt methods. *)
Definition INT_MIN : Z := -2147483648.
Definition INT_MAX : Z := 2147483647.

Definition fits_c_int (v : Z) : bool := (INT_MIN <=? v) && (v <=? INT_MAX).

(** The conversion of an argument: [OverflowError] outside the range. *)
Definition to_c_int (v : Z) : Result Z :=
  if fits_c_int v then Ok v else Err OverflowError.

(** The result of running a handler from a state: it returns a value and
    the new state, or raises from the state reached so far. *)
Inductive Outcome (S A : Type) : Type :=
| Returns (a : A) (s : S)
| Raises (e : Exn) (s : S).
Arguments Returns {S A} a s.
Arguments Raises {S A} e s.

Definition final_state {S A} (o : Outcome S A) : S :=
  match o with Returns _ s => s | Raises _ s => s end.

Definition returns_normally {S A} (o : Outcome S A) : bool :=
  match o with Returns _ _ => true | Raises _ _ => false end.

(** ** Qt widgets *)

Module QAbstractSlider.
(** [QSlider] and [QDial] share this base class.  Qt's defaults are
    range 0..99 and value 0. *)
Record t : Type := mk {
  minimum : Z;
  maximum : Z;
  value : Z;
  signalsBlocked : bool
}.

Definition new : t := mk 0 99 0 false.

Definition bound (s : t) (v : Z) : Z := Z.max (minimum s) (Z.min (maximum s) v).

(** [setRange(lo, hi)]: the value is re-bounded to the new range. *)
Definition setRange (lo hi : Z) (s : t) : t :=
  let hi := Z.max lo hi in
  mk lo hi (Z.max lo (Z.min hi (value s))) (signalsBlocked s).

(** Qt's own [setValue(int)], as the event handlers of the widget call it
    for a position the operator chose: the stored value is [v] bounded to
    the range. *)
Definition set_value (v : Z) (s : t) : t :=
  mk (minimum s) (maximum s) (bound s v) (signalsBlocked s).

(** [setValue(v)] called from Python: the binding converts [v] first. *)
Definition setValue (v : Z) (s : t) : Result t :=
  match to_c_int v with
  | Ok v => Ok (set_value v s)
  | Err e => Err e
  end.

(** [valueChanged] is emitted when the value is set to [v], if the bounded
    value differs from the current one and signals are not blocked. *)
Definition emitted (v : Z) (s : t) : option Z :=
  if signalsBlocked s then None
  else if bound s v =? value s then None
  else Some (bound s v).

Definition blockSignals (b : bool) (s : t) : t :=
  mk (minimum s) (maximum s) (value s) b.
End QAbstractSlider.

Module CircularProgress.
Record t : Type := mk {
  value : Z;
  label : string
}.

(** [__init__]: [self.value = 0]. *)
Definition new (label : string) : t := mk 0 label.

(** [self.value = max(0, min(100, int(v)))]. *)
Definition setValue (v : Z) (w : t) : t :=
  mk (clamp 0 100 (int v)) (label w).
End CircularProgress.

(** The four pages, in the order [__init__] adds them to the stack. *)
Inductive Page : Type := Home | Motor | Sensors | Settings.

#[global] Instance Page_eq_dec : EqDecision Page.
Proof. solve_decision. Defined.

Module QStackedWidget.
(** Each page widget carries its own shown/hidden flag; [currentIndex] is
    [-1] while the stack is empty, as in Qt. *)
Record t : Type := mk {
  widgets : list (Page * bool);
  currentIndex : Z
}.

Definition new : t := mk [] (-1).

Definition count (s : t) : Z := Z.of_nat (length (widgets s)).

Definition set_shown (b : bool) (w : Page * bool) : Page * bool := (fst w, b).

(** [setCurrentIndex(i)]: nothing happens when there is no widget at [i] or
    when it is already the current one; otherwise the new page is shown and
    the previous one hidden. *)
Definition setCurrentIndex (i : Z) (s : t) : t :=
  if (i <? 0) || (count s <=? i) then s
  else if i =? currentIndex s then s
  else
    let shown := alter (set_shown true) (Z.to_nat i) (widgets s) in
    let hidden :=
      if currentIndex s <? 0 then shown
      else alter (set_shown false) (Z.to_nat (currentIndex s)) shown in
    mk hidden i.

(** [addWidget(w)]: the widget is appended; the first widget added to an
    empty stack becomes the current one, later ones are hidden. *)
Definition addWidget (w : Page) (s : t) : t :=
  let s' := mk (widgets s ++ [(w, false)]) (currentIndex s) in
  if currentIndex s <? 0 then setCurrentIndex (count s) s' else s'.

(** The pages that are shown. *)
Definition visible_pages (s : t) : list Page :=
  fst <$> filter (fun w => snd w = true) (widgets s).

Definition currentWidget (s : t) : option Page :=
  if currentIndex s <? 0 then None
  else fst <$> widgets s !! Z.to_nat (currentIndex s).
End QStackedWidget.

(** The result code of a modal dialog. *)
Inductive DialogCode : Type := Rejected | Accepted.

#[global] Instance DialogCode_eq_dec : EqDecision DialogCode.
Proof. solve_decision. Defined.

Module DialDialog.
Record t : Type := mk {
  title : string;
  dial : QAbstractSlider.t;
  value_label : string
}.

(** [__init__(title, initial)]: the dial gets range 0..100 and the initial
    value; [valueChanged] is connected after that, so the label shows the
    raw [initial].  [self.dial.setValue(initial)] raises when [initial] does
    not fit a C [int]: no dialog is built then. *)
Definition new (title : string) (initial : Z) : Result t :=
  let dial := QAbstractSlider.new in
  let dial := QAbstractSlider.setRange 0 100 dial in
  match QAbstractSlider.setValue initial dial with
  | Ok dial => Ok (mk title dial (pretty initial +:+ "%"))
  | Err e => Err e
  end.

Definition _on_change (val : Z) (d : t) : t :=
  mk (title d) (dial d) (pretty val +:+ "%").

Definition get_value (d : t) : Z := QAbstractSlider.value (dial d).

(** The operator turns the dial to position [v]: Qt sets the value and,
    when it changed, emits [valueChanged], which runs [_on_change]. *)
Definition turn (v : Z) (d : t) : t :=
  let d' := mk (title d) (QAbstractSlider.set_value v (dial d)) (value_label d) in
  match QAbstractSlider.emitted v (dial d) with
  | Some x => _on_change x d'
  | None => d'
  end.
End DialDialog.

(** ** Floats and text *)

(** [float(n)] for an [int] of small magnitude (the battery percent lies in
    0..100 where the conversion is exact). *)
Definition float_of_int (n : Z) : float :=
  if n <? 0 then PrimFloat.opp (PrimFloat.of_uint63 (Uint63.of_Z (- n)))
  else PrimFloat.of_uint63 (Uint63.of_Z n).

Definition round_half_even (num den : Z) : Z :=
  let q := num / den in
  let r := num mod den in
  if 2 * r <? den then q
  else if den <? 2 * r then q + 1
  else if Z.even q then q else q + 1.

Definition two_digits (n : Z) : string :=
  if n <? 10 then "0" +:+ pretty n else pretty n.

(** The format specification [.2f]: the exact binary value rounded to two
    decimals, ties to even. *)
Definition format_2f (x : float) : string :=
  match Prim2SF x with
  | S754_nan => "nan"
  | S754_infinity s => if s then "-inf" else "inf"
  | S754_zero s => if s then "-0.00" else "0.00"
  | S754_finite s m e =>
      let n :=
        if 0 <=? e then Z.pos m * 2 ^ e * 100
        else round_half_even (Z.pos m * 100) (2 ^ (- e)) in
      (if s then "-" else "") +:+ pretty (n / 100) +:+ "." +:+ two_digits (n mod 100)
  end.

(** The four characters that open both battery labels in the source, as
    their UTF-8 bytes. *)
Definition battery_glyph : string :=
  String.string_of_list_ascii
    (Ascii.ascii_of_nat <$> [195; 176; 197; 184; 226; 128; 157; 226; 128; 185]%nat).

(** ** Random draws of one battery tick *)

(** What the three calls to [random] return in one tick, when they are
    made: the index [random.choice] picks in its list, the float of
    [random.random()], the integer of [random.randint(8, 25)]. *)
Record BatteryDraws : Type := {
  choice_index : nat;
  random_value : float;
  randint_value : Z
}.

(** The ranges the [random] module guarantees. *)
Definition valid_draws (d : BatteryDraws) : Prop :=
  (choice_index d < 3)%nat
  /\ PrimFloat.leb 0 (random_value d) = true
  /\ PrimFloat.ltb (random_value d) 1 = true
  /\ 8 <= randint_value d <= 25.

Definition random_choice (i : nat) (seq : list Z) : Z := default 0 (seq !! i).

(** A navigation button: its text and its [page_index] property. *)
Module QPushButton.
Record t : Type := mk {
  text : string;
  page_index : Z
}.
End QPushButton.

(** ** The kiosk object *)

(** The attributes of [RobotKiosk] that the handlers below read or write.
    [set_motor_calls] is not an attribute of the source: it is a ghost log
    with one entry per invocation of [_set_motor], kept to count the calls
    of the store-write path. *)
Record RobotKiosk : Type := mkKiosk {
  motors : gmap string Z;
  circ_arm : CircularProgress.t;
  circ_wrist : CircularProgress.t;
  circ_tent : CircularProgress.t;
  s_arm : QAbstractSlider.t;
  s_wrist : QAbstractSlider.t;
  s_tent : QAbstractSlider.t;
  stack : QStackedWidget.t;
  batt_val : Z;
  batt_label : string;
  batt_large_label : string;
  set_motor_calls : list (string * Z)
}.

(** Attribute updates: [with_x f k] is [k] after [self.x = f(self.x)]. *)
Definition with_motors (f : gmap string Z -> gmap string Z)
    (k : RobotKiosk) : RobotKiosk :=
  mkKiosk
    (f (motors k)) (circ_arm k) (circ_wrist k) (circ_tent k)
    (s_arm k) (s_wrist k) (s_tent k) (stack k)
    (batt_val k) (batt_label k) (batt_large_label k) (set_motor_calls k).

Definition with_circ_arm (f : CircularProgress.t -> CircularProgress.t)
    (k : RobotKiosk) : RobotKiosk :=
  mkKiosk
    (motors k) (f (circ_arm k)) (circ_wrist k) (circ_tent k)
    (s_arm k) (s_wrist k) (s_tent k) (stack k)
    (batt_val k) (batt_label k) (batt_large_label k) (set_motor_calls k).

Definition with_circ_wrist (f : CircularProgress.t -> CircularProgress.t)
    (k : RobotKiosk) : RobotKiosk :=
  mkKiosk
    (motors k) (circ_arm k) (f (circ_wrist k)) (circ_tent k)
    (s_arm k) (s_wrist k) (s_tent k) (stack k)
    (batt_val k) (batt_label k) (batt_large_label k) (set_motor_calls k).

Definition with_circ_tent (f : CircularProgress.t -> CircularProgress.t)
    (k : RobotKiosk) : RobotKiosk :=
  mkKiosk
    (motors k) (circ_arm k) (circ_wrist k) (f (circ_tent k))
    (s_arm k) (s_wrist k) (s_tent k) (stack k)
    (batt_val k) (batt_label k) (batt_large_label k) (set_motor_calls k).

Definition with_s_arm (f : QAbstractSlider.t -> QAbstractSlider.t)
    (k : RobotKiosk) : RobotKiosk :=
  mkKiosk
    (motors k) (circ_arm k) (circ_wrist k) (circ_tent k)
    (f (s_arm k)) (s_wrist k) (s_tent k) (stack k)
    (batt_val k) (batt_label k) (batt_large_label k) (set_motor_calls k).

Definition with_s_wrist (f : QAbstractSlider.t -> QAbstractSlider.t)
    (k : RobotKiosk) : RobotKiosk :=
  mkKiosk
    (motors k) (circ_arm k) (circ_wrist k) (circ_tent k)
    (s_arm k) (f (s_wrist k)) (s_tent k) (stack k)
    (batt_val k) (batt_label k) (batt_large_label k) (set_motor_calls k).

Definition with_s_tent (f : QAbstractSlider.t -> QAbstractSlider.t)
    (k : RobotKiosk) : RobotKiosk :=
  mkKiosk
    (motors k) (circ_arm k) (circ_wrist k) (circ_tent k)
    (s_arm k) (s_wrist k) (f (s_tent k)) (stack k)
    (batt_val k) (batt_label k) (batt_large_label k) (set_motor_calls k).

Definition with_stack (f : QStackedWidget.t -> QStackedWidget.t)
    (k : RobotKiosk) : RobotKiosk :=
  mkKiosk
    (motors k) (circ_arm k) (circ_wrist k) (circ_tent k)
    (s_arm k) (s_wrist k) (s_tent k) (f (stack k))
    (batt_val k) (batt_label k) (batt_large_label k) (set_motor_calls k).

Definition with_batt_val (f : Z -> Z)
    (k : RobotKiosk) : RobotKiosk :=
  mkKiosk
    (motors k) (circ_arm k) (circ_wrist k) (circ_tent k)
    (s_arm k) (s_wrist k) (s_tent k) (stack k)
    (f (batt_val k)) (batt_label k) (batt_large_label k) (set_motor_calls k).

Definition with_batt_label (f : string -> string)
    (k : RobotKiosk) : RobotKiosk :=
  mkKiosk
    (motors k) (circ_arm k) (circ_wrist k) (circ_tent k)
    (s_arm k) (s_wrist k) (s_tent k) (stack k)
    (batt_val k) (f (batt_label k)) (batt_large_label k) (set_motor_calls k).

Definition with_batt_large_label (f : string -> string)
    (k : RobotKiosk) : RobotKiosk :=
  mkKiosk
    (motors k) (circ_arm k) (circ_wrist k) (circ_tent k)
    (s_arm k) (s_wrist k) (s_tent k) (stack k)
    (batt_val k) (batt_label k) (f (batt_large_label k)) (set_motor_calls k).

Definition with_set_motor_calls (f : list (string * Z) -> list (string * Z))
    (k : RobotKiosk) : RobotKiosk :=
  mkKiosk
    (motors k) (circ_arm k) (circ_wrist k) (circ_tent k)
    (s_arm k) (s_wrist k) (s_tent k) (stack k)
    (batt_val k) (batt_label k) (batt_large_label k) (f (set_motor_calls k)).

(** ** Handlers: state and exceptions *)

(** A handler runs from a kiosk state and returns or raises. *)
Definition M (A : Type) : Type := RobotKiosk -> Outcome RobotKiosk A.

#[global] Instance M_ret : MRet M := fun A a k => Returns a k.

#[global] Instance M_bind : MBind M := fun A B f m k =>
  match m k with
  | Returns a k' => f a k'
  | Raises e k' => Raises e k'
  end.

Definition get : M RobotKiosk := fun k => Returns k k.

Definition modify (f : RobotKiosk -> RobotKiosk) : M unit := fun k => Returns tt (f k).

Definition raise {A} (e : Exn) : M A := fun k => Raises e k.

(** A call that can raise, made from a handler. *)
Definition lift {A} (r : Result A) : M A := fun k =>
  match r with
  | Ok a => Returns a k
  | Err e => Raises e k
  end.

(** [for x in xs: body(x)]. *)
Fixpoint for_each {A} (xs : list A) (body : A -> M unit) : M unit :=
  match xs with
  | [] => mret tt
  | x :: xs' => body x ;; for_each xs' body
  end.

(** [self.motors[key]]: a missing key raises [KeyError]. *)
Definition motors_getitem (key : string) : M Z := fun k =>
  match motors k !! key with
  | Some v => Returns v k
  | None => raise (KeyError key) k
  end.

(** [key in self.motors]. *)
Definition motors_contains (key : string) (k : RobotKiosk) : bool :=
  bool_decide (is_Some (motors k !! key)).

(** The vertical sliders of the motor page: range 0..100, then the initial
    value. *)
Definition _create_vertical_slider (initial : Z) : Result QAbstractSlider.t :=
  let sl := QAbstractSlider.new in
  let sl := QAbstractSlider.setRange 0 100 sl in
  QAbstractSlider.setValue initial sl.

(** One line of the slider fan-out of [_set_motor]:
    [sl.blockSignals(True); sl.setValue(self.motors[key]); sl.blockSignals(False)],
    where [read] and [write] select the slider attribute.  When [setValue]
    raises, the slider keeps its value and stays blocked. *)
Definition sync_slider (read : RobotKiosk -> QAbstractSlider.t)
    (write : (QAbstractSlider.t -> QAbstractSlider.t) -> RobotKiosk -> RobotKiosk)
    (key : string) : M unit :=
  modify (write (QAbstractSlider.blockSignals true)) ;;
  v ← motors_getitem key;
  k ← get;
  sl ← lift (QAbstractSlider.setValue v (read k));
  modify (write (fun _ => sl)) ;;
  modify (write (QAbstractSlider.blockSignals false)).

Definition _set_motor (key : string) (val : Z) : M unit :=
  let val := int val in
  (* ghost: record the call *)
  modify (with_set_motor_calls (fun log => (log ++ [(key, val)])%list)) ;;
  k ← get;
  (if motors_contains key k
   then modify (with_motors (fun m => <[key := val]> m))
   else mret tt) ;;
  (* Update related UI widgets *)
  v ← motors_getitem "ARM"; modify (with_circ_arm (CircularProgress.setValue v)) ;;
  v ← motors_getitem "WRIST"; modify (with_circ_wrist (CircularProgress.setValue v)) ;;
  v ← motors_getitem "TENTACLE"; modify (with_circ_tent (CircularProgress.setValue v)) ;;
  (* Keep sliders in sync *)
  sync_slider s_arm with_s_arm "ARM" ;;
  sync_slider s_wrist with_s_wrist "WRIST" ;;
  sync_slider s_tent with_s_tent "TENTACLE".

(** The dictionary literal chosen by [_apply_preset], in insertion order. *)
Definition preset_vals (name : string) : list (string * Z) :=
  if String.eqb name "Stand" then [("ARM", 30); ("WRIST", 40); ("TENTACLE", 10)]
  else if String.eqb name "Wave" then [("ARM", 80); ("WRIST", 60); ("TENTACLE", 10)]
  else (* Relax *) [("ARM", 40); ("WRIST", 30); ("TENTACLE", 20)].

Definition _apply_preset (name : string) : M unit :=
  for_each (preset_vals name) (fun kv => _set_motor (fst kv) (snd kv)).

(** [_on_nav]: [sender] is the button whose click is being delivered, or
    [None] when the method is not called from a signal. *)
Definition _on_nav (sender : option QPushButton.t) : M unit :=
  match sender with
  | Some b =>
      let idx := QPushButton.page_index b in
      modify (with_stack (QStackedWidget.setCurrentIndex idx))
  | None => mret tt
  end.

(** The branch condition of the recharge, on the value after the
    decrement. *)
Definition recharges (d : BatteryDraws) (batt : Z) : bool :=
  (batt <? 20) && PrimFloat.ltb (random_value d) 0.28.

Definition _simulate_battery (d : BatteryDraws) : M unit :=
  modify (with_batt_val (fun b => b - random_choice (choice_index d) [0; 0; 1])) ;;
  k ← get;
  (if recharges d (batt_val k)
   then modify (with_batt_val (fun b => Z.min 100 (b + randint_value d)))
   else mret tt) ;;
  modify (with_batt_val (fun b => Z.max 0 (Z.min 100 b))) ;;
  k ← get;
  let voltage := (11.0 + (float_of_int (batt_val k) / 100.0) * 1.6)%float in
  modify (with_batt_label (fun _ =>
    battery_glyph +:+ " " +:+ pretty (batt_val k)
    +:+ "% (" +:+ format_2f voltage +:+ "V)")) ;;
  modify (with_batt_large_label (fun _ =>
    battery_glyph +:+ " " +:+ pretty (batt_val k) +:+ "%")).

(** What happens while the modal dialog runs its event loop: the operator
    turns the dial, and the battery timer keeps firing (the other timers
    write only to labels that are not modelled). *)
Inductive ModalEvent : Type :=
| DialTurned (v : Z)
| BatteryTimeout (d : BatteryDraws).

(** [dlg.exec_()]: the events delivered until the dialog closes. *)
Fixpoint exec_ (events : list ModalEvent) (dlg : DialDialog.t) : M DialDialog.t :=
  match events with
  | [] => mret dlg
  | DialTurned v :: rest => exec_ rest (DialDialog.turn v dlg)
  | BatteryTimeout d :: rest => _simulate_battery d ;; exec_ rest dlg
  end.

(** [_open_dial(motor_name)]; [events] and [code] are what the operator
    does: the dial movements and how the dialog is closed (the Done button
    accepts, Escape rejects). *)
Definition _open_dial (motor_name : string) (events : list ModalEvent)
    (code : DialogCode) : M unit :=
  k ← get;
  let initial := default 50 (motors k !! motor_name) in
  dlg ← lift (DialDialog.new (motor_name +:+ " Control") initial);
  dlg ← exec_ events dlg;
  if decide (code = Accepted) then
    let new_val := DialDialog.get_value dlg in
    _set_motor motor_name new_val
  else mret tt.

(** [d[key]] on a dictionary. *)
Definition dict_getitem (d : gmap string Z) (key : string) : Result Z :=
  match d !! key with
  | Some v => Ok v
  | None => Err (KeyError key)
  end.

(** [__init__]: the motor dictionary, the battery labels, the four pages
    added to the stack in order ([_build_motor_page] creates the gauges and
    the sliders from the dictionary), and [_setup_timers] with the battery at
    100. *)
Definition __init__ : Result RobotKiosk :=
  let motors : gmap string Z :=
    <["TENTACLE" := 50]> (<["WRIST" := 50]> (<["ARM" := 50]> ∅)) in
  let batt_label := battery_glyph +:+ " 100% (12.6V)" in
  let stack := QStackedWidget.new in
  (* _build_home_page *)
  let batt_large_label := battery_glyph +:+ " 100%" in
  let stack := QStackedWidget.addWidget Home stack in
  (* _build_motor_page *)
  let circ_arm := CircularProgress.new "ARM" in
  let circ_wrist := CircularProgress.new "WRIST" in
  let circ_tent := CircularProgress.new "TENTACLE" in
  a ← dict_getitem motors "ARM";
  let circ_arm := CircularProgress.setValue a circ_arm in
  w ← dict_getitem motors "WRIST";
  let circ_wrist := CircularProgress.setValue w circ_wrist in
  t ← dict_getitem motors "TENTACLE";
  let circ_tent := CircularProgress.setValue t circ_tent in
  a ← dict_getitem motors "ARM"; s_arm ← _create_vertical_slider a;
  w ← dict_getitem motors "WRIST"; s_wrist ← _create_vertical_slider w;
  t ← dict_getitem motors "TENTACLE"; s_tent ← _create_vertical_slider t;
  let stack := QStackedWidget.addWidget Motor stack in
  (* _build_sensors_page, _build_settings_page *)
  let stack := QStackedWidget.addWidget Sensors stack in
  let stack := QStackedWidget.addWidget Settings stack in
  (* _setup_timers *)
  let batt_val := 100 in
  mret (mkKiosk motors circ_arm circ_wrist circ_tent s_arm s_wrist s_tent
          stack batt_val batt_label batt_large_label []).

(** The state [__init__] builds (see [init_constructed] below): the motor
    dictionary, the gauges and sliders of the motor page set from it, the
    four pages added to the stack in order, and the battery at 100. *)
Definition init_kiosk : RobotKiosk :=
  let motors : gmap string Z :=
    <["TENTACLE" := 50]> (<["WRIST" := 50]> (<["ARM" := 50]> ∅)) in
  let stack := QStackedWidget.new in
  let stack := QStackedWidget.addWidget Home stack in
  let stack := QStackedWidget.addWidget Motor stack in
  let stack := QStackedWidget.addWidget Sensors stack in
  let stack := QStackedWidget.addWidget Settings stack in
  mkKiosk motors
    (CircularProgress.setValue 50 (CircularProgress.new "ARM"))
    (CircularProgress.setValue 50 (CircularProgress.new "WRIST"))
    (CircularProgress.setValue 50 (CircularProgress.new "TENTACLE"))
    (QAbstractSlider.set_value 50
       (QAbstractSlider.setRange 0 100 QAbstractSlider.new))
    (QAbstractSlider.set_value 50
       (QAbstractSlider.setRange 0 100 QAbstractSlider.new))
    (QAbstractSlider.set_value 50
       (QAbstractSlider.setRange 0 100 QAbstractSlider.new))
    stack
    100
    (battery_glyph +:+ " 100% (12.6V)")
    (battery_glyph +:+ " 100%")
    [].

(** The navigation buttons created by [__init__]. *)
Definition page_buttons : list QPushButton.t :=
  [QPushButton.mk "Home" 0; QPushButton.mk "Motor" 1;
   QPushButton.mk "Sensors" 2; QPushButton.mk "Settings" 3].

(** The motor channels and the views bound to each one, as wired by
    [_build_motor_page] and [_set_motor]. *)
Definition channels : list string := ["ARM"; "WRIST"; "TENTACLE"].

Definition gauge_of (c : string) (k : RobotKiosk) : option CircularProgress.t :=
  if String.eqb c "ARM" then Some (circ_arm k)
  else if String.eqb c "WRIST" then Some (circ_wrist k)
  else if String.eqb c "TENTACLE" then Some (circ_tent k)
  else None.

Definition slider_of (c : string) (k : RobotKiosk) : option QAbstractSlider.t :=
  if String.eqb c "ARM" then Some (s_arm k)
  else if String.eqb c "WRIST" then Some (s_wrist k)
  else if String.eqb c "TENTACLE" then Some (s_tent k)
  else None.

(** The values the views of channel [c] display. *)
Definition displayed (c : string) (k : RobotKiosk) : list Z :=
  (from_option (fun w => [CircularProgress.value w]) [] (gauge_of c k)
   ++ from_option (fun sl => [QAbstractSlider.value sl]) [] (slider_of c k))%list.

(** The stored value of a channel. *)
Definition stored (c : string) (k : RobotKiosk) : option Z := motors k !! c.

(** ** Definitions used to state the properties *)

Definition slider_range (sl : QAbstractSlider.t) : Prop :=
  QAbstractSlider.minimum sl = 0 /\ QAbstractSlider.maximum sl = 100.

(** What [__init__] establishes and every handler keeps: the three channels
    are keys of the motor dictionary, and the three sliders have range
    0..100. *)
Record kiosk_wf (k : RobotKiosk) : Prop := {
  wf_arm : is_Some (motors k !! "ARM");
  wf_wrist : is_Some (motors k !! "WRIST");
  wf_tent : is_Some (motors k !! "TENTACLE");
  wf_s_arm : slider_range (s_arm k);
  wf_s_wrist : slider_range (s_wrist k);
  wf_s_tent : slider_range (s_tent k)
}.

(** The store-write step of [_set_motor], and the fan-out that follows it,
    as pure functions on the state. *)
Definition store_write (key : string) (val : Z) (k : RobotKiosk) : RobotKiosk :=
  if motors_contains key k then with_motors (fun m => <[key := val]> m) k else k.

Definition synced (v : Z) (sl : QAbstractSlider.t) : QAbstractSlider.t :=
  QAbstractSlider.blockSignals false
    (QAbstractSlider.set_value v (QAbstractSlider.blockSignals true sl)).

Definition fan_out (a w t : Z) (k : RobotKiosk) : RobotKiosk :=
  with_s_tent (synced t)
    (with_s_wrist (synced w)
      (with_s_arm (synced a)
        (with_circ_tent (CircularProgress.setValue t)
          (with_circ_wrist (CircularProgress.setValue w)
            (with_circ_arm (CircularProgress.setValue a) k))))).

Definition log_call (key : string) (val : Z) (k : RobotKiosk) : RobotKiosk :=
  with_set_motor_calls (fun log => (log ++ [(key, val)])%list) k.

(** The outcome of the fan-out for stored values [a], [w], [t] of the three
    channels: the gauges are set first; then each slider is blocked, set and
    unblocked in turn, and the first value that does not fit a C [int] stops
    the fan-out with [OverflowError], its slider blocked and not set, the
    sliders after it untouched. *)
Definition gauges_set (a w t : Z) (k : RobotKiosk) : RobotKiosk :=
  with_circ_tent (CircularProgress.setValue t)
    (with_circ_wrist (CircularProgress.setValue w)
      (with_circ_arm (CircularProgress.setValue a) k)).

Definition fan_out_outcome (a w t : Z) (k : RobotKiosk) : Outcome RobotKiosk unit :=
  let g := gauges_set a w t k in
  if negb (fits_c_int a) then
    Raises OverflowError (with_s_arm (QAbstractSlider.blockSignals true) g)
  else if negb (fits_c_int w) then
    Raises OverflowError
      (with_s_wrist (QAbstractSlider.blockSignals true)
         (with_s_arm (synced a) g))
  else if negb (fits_c_int t) then
    Raises OverflowError
      (with_s_tent (QAbstractSlider.blockSignals true)
         (with_s_wrist (synced w) (with_s_arm (synced a) g)))
  else Returns tt (fan_out a w t k).

(** The battery percent after one tick, as a function of the percent
    before it and of the draws. *)
Definition next_percent (d : BatteryDraws) (b : Z) : Z :=
  let b1 := b - random_choice (choice_index d) [0; 0; 1] in
  let b2 := if recharges d b1 then Z.min 100 (b1 + randint_value d) else b1 in
  Z.max 0 (Z.min 100 b2).

(** The linear mapping from percent to voltage, as the specification words
    it: [11.0 + (p / 100) * 1.6], in binary64 arithmetic. *)
Definition linear_voltage (p : Z) : float :=
  (11.0 + (float_of_int p / 100.0) * 1.6)%float.

(** The motor side of the state: the dictionary, the six views and the
    call log. *)
Definition motor_side (k : RobotKiosk) :=
  (motors k, (circ_arm k, circ_wrist k, circ_tent k),
   (s_arm k, s_wrist k, s_tent k), set_motor_calls k).

(** The dialog [DialDialog(title, initial)] builds when [initial] fits a
    C [int]. *)
Definition dial_opened (title : string) (initial : Z) : DialDialog.t :=
  DialDialog.mk title
    (QAbstractSlider.set_value initial
       (QAbstractSlider.setRange 0 100 QAbstractSlider.new))
    (pretty initial +:+ "%").

(** The dialog and the kiosk after the events of a modal session. *)
Fixpoint dial_after (events : list ModalEvent) (dlg : DialDialog.t) : DialDialog.t :=
  match events with
  | [] => dlg
  | DialTurned v :: rest => dial_after rest (DialDialog.turn v dlg)
  | BatteryTimeout _ :: rest => dial_after rest dlg
  end.

Fixpoint ticks_after (events : list ModalEvent) (k : RobotKiosk) : RobotKiosk :=
  match events with
  | [] => k
  | DialTurned _ :: rest => ticks_after rest k
  | BatteryTimeout d :: rest =>
      ticks_after rest (final_state (_simulate_battery d k))
  end.

Definition is_timeout (ev : ModalEvent) : Prop :=
  match ev with BatteryTimeout _ => True | DialTurned _ => False end.

Definition dial_range (dlg : DialDialog.t) : Prop :=
  slider_range (DialDialog.dial dlg).

(** The widget at index [i] is shown and every other one is hidden. *)
Definition shown_only (i : nat) (ws : list (Page * bool)) : Prop :=
  forall j w, ws !! j = Some w -> snd w = bool_decide (j = i).

(** The invariant of a non-empty stack: the current index names a widget,
    and it is the only one shown. *)
Definition one_current (s : QStackedWidget.t) : Prop :=
  exists i, QStackedWidget.currentIndex s = Z.of_nat i
    /\ (i < length (QStackedWidget.widgets s))%nat
    /\ shown_only i (QStackedWidget.widgets s).

(** The stack of the kiosk: the four pages in the order of [__init__],
    exactly one of them current. *)
Definition nav_wf (s : QStackedWidget.t) : Prop :=
  fst <$> QStackedWidget.widgets s = [Home; Motor; Sensors; Settings]
  /\ one_current s.

(** The navigation button of a page, as [__init__] creates it. *)
Definition nav_button (p : Page) : QPushButton.t :=
  match p with
  | Home => QPushButton.mk "Home" 0
  | Motor => QPushButton.mk "Motor" 1
  | Sensors => QPushButton.mk "Sensors" 2
  | Settings => QPushButton.mk "Settings" 3
  end.

(** The views of channel [c] show the clamped value [x]. *)
Definition views_show (c : string) (k : RobotKiosk) (x : Z) : Prop :=
  CircularProgress.value <$> gauge_of c k = Some (clamp 0 100 x)
  /\ QAbstractSlider.value <$> slider_of c k = Some (clamp 0 100 x).

(** The stored values of the three channels fit a C [int], so that the
    sliders take them. *)
Definition store_fits (k : RobotKiosk) : Prop :=
  forall c x, c ∈ channels -> stored c k = Some x -> fits_c_int x = true.

(** The three sliders deliver their signals. *)
Definition sliders_unblocked (k : RobotKiosk) : Prop :=
  QAbstractSlider.signalsBlocked (s_arm k) = false
  /\ QAbstractSlider.signalsBlocked (s_wrist k) = false
  /\ QAbstractSlider.signalsBlocked (s_tent k) = false.

(** What one call [_set_motor(key, val)] that returns does to a well-formed
    state [k], giving [k']. *)
Record set_motor_post (key : string) (val : Z) (k k' : RobotKiosk) : Prop := {
  post_wf : kiosk_wf k';
  post_fits : store_fits k';
  post_unblocked : sliders_unblocked k';
  post_stored : forall c,
    stored c k' = if decide (key = c) then (fun _ => val) <$> stored c k
                  else stored c k;
  post_views : forall c x,
    c ∈ channels -> stored c k' = Some x -> views_show c k' x;
  post_calls : set_motor_calls k' = (set_motor_calls k ++ [(key, val)])%list;
  post_stack : stack k' = stack k;
  post_batt_val : batt_val k' = batt_val k
}.

(** The two-decimal rendering of the real number [11 + 1.6 * p / 100],
    computed in integers: a hundred times the voltage is
    [(5500 + 8 * p) / 5]. *)
Definition exact_2f (p : Z) : string :=
  let n := round_half_even (5500 + 8 * p) 5 in
  pretty (n / 100) +:+ "." +:+ two_digits (n mod 100).

(** The methods of the kiosk as calls, with the arguments and the operator
    input they receive. *)
Inductive Call : Type :=
| CallSetMotor (key : string) (val : Z)
| CallApplyPreset (name : string)
| CallOnNav (sender : option QPushButton.t)
| CallOpenDial (motor_name : string) (events : list ModalEvent) (code : DialogCode)
| CallSimulateBattery (d : BatteryDraws).

Definition call (c : Call) : M unit :=
  match c with
  | CallSetMotor key val => _set_motor key val
  | CallApplyPreset name => _apply_preset name
  | CallOnNav sender => _on_nav sender
  | CallOpenDial motor_name events code => _open_dial motor_name events code
  | CallSimulateBattery d => _simulate_battery d
  end.

(** The states the kiosk can be in: the initial one, and those a call that
    returned leads to. *)
Inductive reachable : RobotKiosk -> Prop :=
| reachable_init : reachable init_kiosk
| reachable_call (c : Call) (k k' : RobotKiosk) :
    reachable k -> call c k = Returns tt k' -> reachable k'.

(** The invariant of the kiosk: the three channels, and no other key, are in
    the dictionary with values that fit a C [int]; the sliders have range
    0..100; exactly one page is current; the battery is in 0..100. *)
Record kiosk_inv (k : RobotKiosk) : Prop := {
  inv_wf : kiosk_wf k;
  inv_fits : store_fits k;
  inv_keys : forall c, is_Some (stored c k) -> c ∈ channels;
  inv_nav : nav_wf (stack k);
  inv_batt : 0 <= batt_val k <= 100
}.

(** The state a sequence of calls ends in, each call made in the state the
    one before it left. *)
Definition after_calls (cs : list Call) (k : RobotKiosk) : RobotKiosk :=
  fold_left (fun k c => final_state (call c k)) cs k.

(** Every call of the sequence returned. *)
Fixpoint calls_returned (cs : list Call) (k : RobotKiosk) : bool :=
  match cs with
  | [] => true
  | c :: cs' =>
      returns_normally (call c k) && calls_returned cs' (final_state (call c k))
  end.

(** The integer argument of a call can be passed on to Qt: a value written
    to a channel fits a C [int].  The other handlers take no integer from
    their caller. *)
Definition call_fits (c : Call) : Prop :=
  match c with
  | CallSetMotor key val => key ∈ channels -> fits_c_int val = true
  | _ => True
  end.

(** ** Operator events on the motor page *)

(** The three motor channels, as the widgets of the motor page are wired:
    one slider, one diagram button and one gauge each. *)
Inductive Channel : Type := ARM | WRIST | TENTACLE.

Definition channel_key (ch : Channel) : string :=
  match ch with
  | ARM => "ARM"
  | WRIST => "WRIST"
  | TENTACLE => "TENTACLE"
  end.

(** The preset buttons: [for name in ("Stand", "Wave", "Relax")]. *)
Inductive Preset : Type := Stand | Wave | Relax.

Definition preset_name (p : Preset) : string :=
  match p with
  | Stand => "Stand"
  | Wave => "Wave"
  | Relax => "Relax"
  end.

Definition with_slider_of (c : string)
    (f : QAbstractSlider.t -> QAbstractSlider.t) (k : RobotKiosk) : RobotKiosk :=
  if String.eqb c "ARM" then with_s_arm f k
  else if String.eqb c "WRIST" then with_s_wrist f k
  else if String.eqb c "TENTACLE" then with_s_tent f k
  else k.

(** The operator moves the slider of channel [ch] to position [pos]: Qt sets
    the slider's value and, when it changed, emits [valueChanged(v)], which
    is connected to [lambda v: self._set_motor(c, v)]. *)
Definition slider_moved (ch : Channel) (pos : Z) : M unit :=
  let c := channel_key ch in
  k ← get;
  match slider_of c k with
  | None => mret tt
  | Some sl =>
      modify (with_slider_of c (QAbstractSlider.set_value pos)) ;;
      match QAbstractSlider.emitted pos sl with
      | Some v => _set_motor c v
      | None => mret tt
      end
  end.

(** What the event loop delivers to the kiosk while the motor page, the
    navigation bar and the battery timer are live. *)
Inductive GuiEvent : Type :=
| SliderMoved (ch : Channel) (pos : Z)
| DiagramClicked (ch : Channel) (events : list ModalEvent) (code : DialogCode)
| PresetClicked (p : Preset)
| NavClicked (p : Page)
| BatteryTimer (d : BatteryDraws).

(** The slot each event is connected to. *)
Definition deliver (e : GuiEvent) : M unit :=
  match e with
  | SliderMoved ch pos => slider_moved ch pos
  | DiagramClicked ch events code => _open_dial (channel_key ch) events code
  | PresetClicked p => _apply_preset (preset_name p)
  | NavClicked p => _on_nav (Some (nav_button p))
  | BatteryTimer d => _simulate_battery d
  end.

(** The states the operator can bring the kiosk to. *)
Inductive gui_reachable : RobotKiosk -> Prop :=
| gui_reachable_init : gui_reachable init_kiosk
| gui_reachable_event (e : GuiEvent) (k k' : RobotKiosk) :
    gui_reachable k -> deliver e k = Returns tt k' -> gui_reachable k'.

(** Every gauge and slider shows the clamped stored value of its channel. *)
Definition views_consistent (k : RobotKiosk) : Prop :=
  forall c x, c ∈ channels -> stored c k = Some x -> views_show c k x.

(** The invariant of the states the operator can reach: the store holds
    values in 0..100 and the views show them. *)
Record gui_inv (k : RobotKiosk) : Prop := {
  gui_wf : kiosk_wf k;
  gui_unblocked : sliders_unblocked k;
  gui_range : forall c x, stored c k = Some x -> 0 <= x <= 100;
  gui_views : views_consistent k
}.

(** The readout of the dial dialog agrees with its dial. *)
Definition readout_agrees (dlg : DialDialog.t) : Prop :=
  DialDialog.value_label dlg = pretty (DialDialog.get_value dlg) +:+ "%".

(** A run of battery ticks. *)
Definition battery_ticks (draws : list BatteryDraws) : M unit :=
  for_each draws _simulate_battery.

(** ** Uptime and connection timers *)

(** The attributes the uptime and connection timers write, with the values
    [__init__] and [_setup_timers] give them. *)
Record Telemetry : Type := mkTelemetry {
  uptime_seconds : Z;
  uptime_label : string;
  conn_state : bool;
  conn_label : string;
  wifi_entry : string
}.

Definition init_telemetry : Telemetry :=
  mkTelemetry 0 "Uptime: 00:00:00" false
    "WiFi: --" "WiFi: Not connected (simulated)".

(** The format specification [02d]: at least two characters, padded with a
    zero on the left. *)
Definition format_02d (n : Z) : string :=
  if (0 <=? n) && (n <? 10) then "0" +:+ pretty n else pretty n.

Definition _update_uptime (t : Telemetry) : Telemetry :=
  let uptime := uptime_seconds t + 1 in
  let s := uptime in
  let h := s / 3600 in
  let m := (s mod 3600) / 60 in
  let sec := s mod 60 in
  mkTelemetry uptime
    ("Uptime: " +:+ format_02d h +:+ ":" +:+ format_02d m +:+ ":" +:+ format_02d sec)
    (conn_state t) (conn_label t) (wifi_entry t).

(** [_toggle_conn]; [ss] is what [random.randint(-70, -40)] returns when the
    connection comes up. *)
Definition _toggle_conn (ss : Z) (t : Telemetry) : Telemetry :=
  let conn := negb (conn_state t) in
  if conn then
    mkTelemetry (uptime_seconds t) (uptime_label t) conn
      ("WiFi: connected (RSSI " +:+ pretty ss +:+ " dBm)")
      ("WiFi: Connected (RSSI " +:+ pretty ss +:+ " dBm)")
  else
    mkTelemetry (uptime_seconds t) (uptime_label t) conn
      "WiFi: disconnected"
      "WiFi: Not connected (simulated)".

(** A run of connection ticks, one draw per tick. *)
Definition toggle_conns (draws : list Z) (t : Telemetry) : Telemetry :=
  fold_left (fun t ss => _toggle_conn ss t) draws t.

(** ** Painting a gauge *)

(** [int(x)] for a finite float: truncation toward zero. *)
Definition int_of_float (x : float) : Z :=
  match Prim2SF x with
  | S754_finite s m e =>
      let a := if 0 <=? e then Z.pos m * 2 ^ e else Z.pos m / 2 ^ (- e) in
      if s then - a else a
  | _ => 0
  end.

Module QRect.
(** A rectangle by its corners. *)
Record t : Type := mk {
  x1 : Z;
  y1 : Z;
  x2 : Z;
  y2 : Z
}.

Definition adjusted (dx1 dy1 dx2 dy2 : Z) (r : t) : t :=
  mk (x1 r + dx1) (y1 r + dy1) (x2 r + dx2) (y2 r + dy2).
End QRect.

(** What [paintEvent] asks the painter to draw; angles are in sixteenths of
    a degree.  Pens and fonts do not depend on the value and are left out. *)
Inductive DrawCommand : Type :=
| DrawEllipse (rect : QRect.t)
| DrawArc (rect : QRect.t) (start_angle span_angle : Z)
| DrawText (rect : QRect.t) (text : string).

Definition newline : string := String (Ascii.ascii_of_nat 10) EmptyString.

(** [-int(360 * 16 * (value / 100.0))]. *)
Definition span_angle_of (value : Z) : Z :=
  - int_of_float
      (float_of_int (360 * 16) * (float_of_int value / 100.0))%float.

(** [CircularProgress.paintEvent], for a widget of rectangle [r]. *)
Definition paintEvent (r : QRect.t) (w : CircularProgress.t) : list DrawCommand :=
  let margin := 10 in
  let rect := QRect.adjusted margin margin (- margin) (- margin) r in
  let start_angle := 90 * 16 in
  let span_angle := span_angle_of (CircularProgress.value w) in
  [DrawEllipse rect;
   DrawArc rect start_angle span_angle;
   DrawText rect
     (CircularProgress.label w +:+ newline
      +:+ pretty (CircularProgress.value w) +:+ "%")].

(** * Properties *)

(** ** Tactics *)

(** Unfold the monad operations of a handler. *)
Ltac run_handler :=
  unfold mbind, M_bind, modify, get, mret, M_ret, motors_getitem, lift, raise.

(** Split a hypothesis [c ∈ channels] into the three channels. *)
Ltac channel_cases H :=
  apply list_elem_of_In in H; simpl in H;
  destruct H as [H | [H | [H | []]]]; symmetry in H; subst.

(** Prove that a literal is one of the channels. *)
Ltac in_channels := apply list_elem_of_In; simpl; tauto.

(** ** Clamping, C ints and sliders *)

Lemma clamp_id (v : Z) : 0 <= v <= 100 -> clamp 0 100 v = v.
Proof. unfold clamp. lia. Qed.

Lemma clamp_fixed_iff (v : Z) : clamp 0 100 v = v <-> 0 <= v <= 100.
Proof. unfold clamp. lia. Qed.

Lemma fits_c_int_range (v : Z) :
  fits_c_int v = true <-> -2147483648 <= v <= 2147483647.
Proof.
  unfold fits_c_int, INT_MIN, INT_MAX.
  rewrite andb_true_iff, Z.leb_le, Z.leb_le. reflexivity.
Qed.

Lemma fits_c_int_percent (v : Z) : 0 <= v <= 100 -> fits_c_int v = true.
Proof. intros Hv. apply fits_c_int_range. lia. Qed.

Lemma fits_c_int_clamp (v : Z) : fits_c_int (clamp 0 100 v) = true.
Proof. apply fits_c_int_percent. unfold clamp. lia. Qed.

Lemma setValue_fits (v : Z) (sl : QAbstractSlider.t) :
  fits_c_int v = true ->
  QAbstractSlider.setValue v sl = Ok (QAbstractSlider.set_value v sl).
Proof.
  intros Hv. unfold QAbstractSlider.setValue, to_c_int. rewrite Hv. reflexivity.
Qed.

Lemma setValue_overflow (v : Z) (sl : QAbstractSlider.t) :
  fits_c_int v = false -> QAbstractSlider.setValue v sl = Err OverflowError.
Proof.
  intros Hv. unfold QAbstractSlider.setValue, to_c_int. rewrite Hv. reflexivity.
Qed.

Lemma synced_value (v : Z) (sl : QAbstractSlider.t) :
  slider_range sl -> QAbstractSlider.value (synced v sl) = clamp 0 100 v.
Proof.
  intros [Hlo Hhi]. unfold synced, clamp. cbn.
  unfold QAbstractSlider.bound. cbn. rewrite Hlo, Hhi. reflexivity.
Qed.

Lemma synced_range (v : Z) (sl : QAbstractSlider.t) :
  slider_range sl -> slider_range (synced v sl).
Proof. intros H. exact H. Qed.

(** Signals are blocked while [_set_motor] moves a slider, so the slider's
    [valueChanged] handler (which is [_set_motor] itself) is not re-entered. *)
Lemma blocked_slider_emits_nothing (v : Z) (sl : QAbstractSlider.t) :
  QAbstractSlider.emitted v (QAbstractSlider.blockSignals true sl) = None.
Proof. reflexivity. Qed.

Lemma displayed_pair (c : string) (k : RobotKiosk) (x : Z) :
  views_show c k x -> displayed c k = [clamp 0 100 x; clamp 0 100 x].
Proof.
  unfold views_show, displayed. intros [Hg Hs].
  destruct (gauge_of c k) as [g|]; [|discriminate].
  destruct (slider_of c k) as [sl|]; [|discriminate].
  cbn in *. congruence.
Qed.

(** ** Well-formed kiosk states *)

(** The literal state is what the constructor builds. *)
Lemma init_constructed : __init__ = Ok init_kiosk.
Proof. reflexivity. Qed.

Lemma init_kiosk_wf : kiosk_wf init_kiosk.
Proof.
  split; try (vm_compute; eauto); split; reflexivity.
Qed.

Lemma wf_channel_known (k : RobotKiosk) (c : string) :
  kiosk_wf k -> c ∈ channels -> is_Some (stored c k).
Proof.
  intros [] Hc. unfold stored. channel_cases Hc; assumption.
Qed.

Lemma init_kiosk_fits : store_fits init_kiosk.
Proof.
  intros c x Hc Hx. channel_cases Hc; vm_compute in Hx;
    injection Hx as <-; reflexivity.
Qed.

(** ** One call of [_set_motor] *)

Section SetMotor.

Context (key : string) (val : Z) (k : RobotKiosk).

(** The state after the log entry and the store write. *)
Let k1 : RobotKiosk := store_write key val (log_call key val k).

Lemma store_write_lookup (c : string) :
  motors k1 !! c =
  if decide (key = c) then (fun _ => val) <$> motors k !! c else motors k !! c.
Proof.
  unfold k1, store_write, motors_contains, log_call.
  cbn [motors with_set_motor_calls].
  case_bool_decide as Hk; simpl.
  - rewrite lookup_insert. case_decide; subst; [|done].
    destruct Hk as [x ->]. done.
  - case_decide as Heq; [|done]. subst.
    destruct (motors k !! c) eqn:E; [|done].
    exfalso. apply Hk. eauto.
Qed.

Lemma store_write_is_Some (c : string) :
  is_Some (motors k !! c) -> is_Some (motors k1 !! c).
Proof.
  intros [x Hx]. rewrite store_write_lookup, Hx. case_decide; simpl; eauto.
Qed.

(** The store write and the log entry leave everything but the dictionary
    and the log alone. *)
Lemma store_write_frame :
  circ_arm k1 = circ_arm k /\ circ_wrist k1 = circ_wrist k
  /\ circ_tent k1 = circ_tent k
  /\ s_arm k1 = s_arm k /\ s_wrist k1 = s_wrist k /\ s_tent k1 = s_tent k
  /\ stack k1 = stack k /\ batt_val k1 = batt_val k
  /\ set_motor_calls k1 = (set_motor_calls k ++ [(key, val)])%list.
Proof.
  unfold k1, store_write, log_call.
  destruct (motors_contains _ _); cbn; tauto.
Qed.

(** The call is the log entry, the store write, then the fan-out, whenever
    the three channels are keys of the dictionary after the write. *)
Lemma set_motor_run_with (a w t : Z) :
  motors k1 !! "ARM" = Some a ->
  motors k1 !! "WRIST" = Some w ->
  motors k1 !! "TENTACLE" = Some t ->
  _set_motor key val k = fan_out_outcome a w t k1.
Proof.
  unfold k1, _set_motor, sync_slider, store_write, int, log_call,
    fan_out_outcome, QAbstractSlider.setValue, to_c_int.
  run_handler. cbn beta iota.
  destruct (motors_contains key _); cbn; intros Ha Hw Ht;
    repeat (progress (cbn; rewrite ?Ha, ?Hw, ?Ht));
    destruct (fits_c_int a); cbn; rewrite ?Ha, ?Hw, ?Ht; cbn; try reflexivity;
    destruct (fits_c_int w); cbn; rewrite ?Ha, ?Hw, ?Ht; cbn; try reflexivity;
    destruct (fits_c_int t); cbn; reflexivity.
Qed.

Hypothesis Hwf : kiosk_wf k.

Lemma set_motor_run :
  exists a w t,
    motors k1 !! "ARM" = Some a
    /\ motors k1 !! "WRIST" = Some w
    /\ motors k1 !! "TENTACLE" = Some t
    /\ _set_motor key val k = fan_out_outcome a w t k1.
Proof.
  destruct (store_write_is_Some "ARM") as [a Ha]; [apply Hwf|].
  destruct (store_write_is_Some "WRIST") as [w Hw]; [apply Hwf|].
  destruct (store_write_is_Some "TENTACLE") as [t Ht]; [apply Hwf|].
  exists a, w, t. repeat split; try assumption.
  apply set_motor_run_with; assumption.
Qed.

(** The fan-out returns exactly when the three values fit a C [int]. *)
Lemma fan_out_outcome_returns (a w t : Z) (s : RobotKiosk) :
  fits_c_int a = true -> fits_c_int w = true -> fits_c_int t = true ->
  fan_out_outcome a w t s = Returns tt (fan_out a w t s).
Proof.
  intros Ha Hw Ht. unfold fan_out_outcome. rewrite Ha, Hw, Ht. reflexivity.
Qed.

Lemma fan_out_outcome_cases (a w t : Z) (s : RobotKiosk) :
  (fits_c_int a = true /\ fits_c_int w = true /\ fits_c_int t = true
   /\ fan_out_outcome a w t s = Returns tt (fan_out a w t s))
  \/ ((fits_c_int a = false \/ fits_c_int w = false \/ fits_c_int t = false)
      /\ exists s', fan_out_outcome a w t s = Raises OverflowError s'
           /\ motors s' = motors s
           /\ circ_arm s' = CircularProgress.setValue a (circ_arm s)
           /\ circ_wrist s' = CircularProgress.setValue w (circ_wrist s)
           /\ circ_tent s' = CircularProgress.setValue t (circ_tent s)
           /\ stack s' = stack s /\ batt_val s' = batt_val s
           /\ set_motor_calls s' = set_motor_calls s).
Proof.
  unfold fan_out_outcome.
  destruct (fits_c_int a); cbn [negb];
    [destruct (fits_c_int w); cbn [negb];
      [destruct (fits_c_int t); cbn [negb]|]|].
  - left. auto.
  - right. split; [auto|]. eexists. split; [reflexivity|]. cbn. tauto.
  - right. split; [auto|]. eexists. split; [reflexivity|]. cbn. tauto.
  - right. split; [auto|]. eexists. split; [reflexivity|]. cbn. tauto.
Qed.

(** The state the fan-out leaves when it returns. *)
Lemma fan_out_post (a w t : Z) :
  motors k1 !! "ARM" = Some a ->
  motors k1 !! "WRIST" = Some w ->
  motors k1 !! "TENTACLE" = Some t ->
  fits_c_int a = true -> fits_c_int w = true -> fits_c_int t = true ->
  set_motor_post key val k (fan_out a w t k1).
Proof.
  intros Ha Hw Ht Fa Fw Ft.
  destruct store_write_frame
    as (_ & _ & _ & Hsa & Hsw & Hst & Hstack & Hbatt & Hlog).
  split.
  - split; cbn; rewrite ?Ha, ?Hw, ?Ht, ?Hsa, ?Hsw, ?Hst; eauto;
      apply synced_range, Hwf.
  - intros c x Hc. unfold stored.
    change (motors (fan_out a w t k1)) with (motors k1).
    intros Hx. channel_cases Hc; congruence.
  - repeat split.
  - intros c. unfold stored.
    change (motors (fan_out a w t k1)) with (motors k1).
    apply store_write_lookup.
  - intros c x Hc. unfold stored.
    change (motors (fan_out a w t k1)) with (motors k1).
    intros Hx. channel_cases Hc.
    + assert (x = a) as -> by congruence.
      split; [reflexivity|]. cbn. f_equal.
      apply synced_value. rewrite Hsa. apply Hwf.
    + assert (x = w) as -> by congruence.
      split; [reflexivity|]. cbn. f_equal.
      apply synced_value. rewrite Hsw. apply Hwf.
    + assert (x = t) as -> by congruence.
      split; [reflexivity|]. cbn. f_equal.
      apply synced_value. rewrite Hst. apply Hwf.
  - exact Hlog.
  - exact Hstack.
  - exact Hbatt.
Qed.

(** On a well-formed state the call has two outcomes: it returns, the three
    stored values fitting a C [int], or it raises [OverflowError], one of
    them not fitting; [KeyError] is not possible. *)
Lemma set_motor_outcomes :
  (exists k', _set_motor key val k = Returns tt k'
     /\ store_fits k1 /\ set_motor_post key val k k')
  \/ (exists k', _set_motor key val k = Raises OverflowError k'
        /\ ~ store_fits k1
        /\ motors k' = motors k1
        /\ stack k' = stack k /\ batt_val k' = batt_val k
        /\ set_motor_calls k' = (set_motor_calls k ++ [(key, val)])%list).
Proof.
  destruct set_motor_run as (a & w & t & Ha & Hw & Ht & Hrun).
  destruct store_write_frame
    as (_ & _ & _ & _ & _ & _ & Hstack & Hbatt & Hlog).
  destruct (fan_out_outcome_cases a w t k1)
    as [(Fa & Fw & Ft & Heq) | (Hbad & s' & Heq & Hm & _ & _ & _ & Hs & Hb & Hl)].
  - left. exists (fan_out a w t k1). split; [congruence|]. split.
    + intros c x Hc. unfold stored. intros Hx. channel_cases Hc; congruence.
    + apply fan_out_post; assumption.
  - right. exists s'. split; [congruence|]. split.
    + intros Hfits.
      pose proof (Hfits "ARM" a ltac:(in_channels) Ha).
      pose proof (Hfits "WRIST" w ltac:(in_channels) Hw).
      pose proof (Hfits "TENTACLE" t ltac:(in_channels) Ht).
      destruct Hbad as [Hb' | [Hb' | Hb']]; congruence.
    + split; [exact Hm|]. split; [congruence|]. split; congruence.
Qed.

End SetMotor.

(** The store write keeps the stored values within the C [int] range when
    the value written to a channel is. *)
Lemma store_write_fits (key : string) (val : Z) (k : RobotKiosk) :
  store_fits k -> (key ∈ channels -> fits_c_int val = true) ->
  store_fits (store_write key val (log_call key val k)).
Proof.
  intros Hfits Hval c x Hc. unfold stored.
  rewrite store_write_lookup. case_decide as Heq.
  - subst c. destruct (motors k !! key); cbn; [|discriminate].
    intros [= <-]. apply Hval, Hc.
  - apply Hfits, Hc.
Qed.

(** The complete effect of one call that can pass its values to the
    sliders. *)
Lemma set_motor_spec (key : string) (val : Z) (k : RobotKiosk) :
  kiosk_wf k -> store_fits k -> (key ∈ channels -> fits_c_int val = true) ->
  exists k', _set_motor key val k = Returns tt k' /\ set_motor_post key val k k'.
Proof.
  intros Hwf Hfits Hval.
  destruct (set_motor_outcomes key val k Hwf)
    as [(k' & Hrun & _ & Hpost) | (k' & _ & Hbad & _)].
  - eauto.
  - exfalso. apply Hbad, store_write_fits; assumption.
Qed.

(** The effect of any call that returned. *)
Lemma set_motor_returned (key : string) (val : Z) (k k' : RobotKiosk) :
  kiosk_wf k -> _set_motor key val k = Returns tt k' ->
  set_motor_post key val k k'.
Proof.
  intros Hwf Hrun.
  destruct (set_motor_outcomes key val k Hwf)
    as [(k2 & Hrun2 & _ & Hpost) | (k2 & Hrun2 & _)]; [|congruence].
  assert (k2 = k') as -> by congruence. exact Hpost.
Qed.

(** The only exception of a call on a well-formed state. *)
Lemma set_motor_raised (key : string) (val : Z) (e : Exn) (k k' : RobotKiosk) :
  kiosk_wf k -> _set_motor key val k = Raises e k' -> e = OverflowError.
Proof.
  intros Hwf Hrun.
  destruct (set_motor_outcomes key val k Hwf)
    as [(k2 & Hrun2 & _) | (k2 & Hrun2 & _)]; congruence.
Qed.

(** A value written to a channel that does not fit a C [int] makes the call
    raise. *)
Lemma set_motor_overflow (c : string) (v : Z) (k : RobotKiosk) :
  kiosk_wf k -> c ∈ channels -> fits_c_int v = false ->
  exists k', _set_motor c v k = Raises OverflowError k'.
Proof.
  intros Hwf Hc Hv.
  destruct (set_motor_outcomes c v k Hwf)
    as [(k' & _ & Hfits & _) | (k' & Hrun & _)]; [|eauto].
  exfalso.
  destruct (wf_channel_known k c Hwf Hc) as [x Hx]. unfold stored in Hx.
  assert (fits_c_int v = true); [|congruence].
  apply (Hfits c v Hc). unfold stored.
  rewrite store_write_lookup, Hx, decide_True by reflexivity. reflexivity.
Qed.

(** Whatever the state and whether the call returns or raises, the motor
    dictionary at the end is the one the store write leaves: nothing after
    the write touches it. *)
Lemma set_motor_final_motors (key : string) (val : Z) (k : RobotKiosk) :
  motors (final_state (_set_motor key val k)) =
  motors (store_write key val (log_call key val k)).
Proof.
  unfold _set_motor, sync_slider, store_write, log_call, int,
    QAbstractSlider.setValue, to_c_int.
  run_handler. cbn beta iota.
  destruct (motors_contains key _); cbn;
    repeat match goal with
    | |- context [match ?m !! ?c with _ => _ end] =>
        destruct (m !! c) eqn:?; cbn
    | |- context [if fits_c_int ?v then _ else _] =>
        destruct (fits_c_int v) eqn:?; cbn
    end; reflexivity.
Qed.

(** The stored value of every key at the end of a call, returning or
    raising. *)
Lemma set_motor_final_stored (key c : string) (val : Z) (k : RobotKiosk) :
  stored c (final_state (_set_motor key val k)) =
  if decide (key = c) then (fun _ => val) <$> stored c k else stored c k.
Proof.
  unfold stored. rewrite set_motor_final_motors. apply store_write_lookup.
Qed.

(** The stored value of a channel after a write to that channel. *)
Lemma set_motor_post_same (c : string) (v : Z) (k k' : RobotKiosk) :
  kiosk_wf k -> c ∈ channels -> set_motor_post c v k k' -> stored c k' = Some v.
Proof.
  intros Hwf Hc Hpost.
  destruct (wf_channel_known k c Hwf Hc) as [x Hx].
  rewrite (post_stored _ _ _ _ Hpost c), Hx, decide_True by reflexivity.
  reflexivity.
Qed.

(** The stored value of any other key. *)
Lemma set_motor_post_other (key c : string) (v : Z) (k k' : RobotKiosk) :
  key <> c -> set_motor_post key v k k' -> stored c k' = stored c k.
Proof.
  intros Hne Hpost.
  rewrite (post_stored _ _ _ _ Hpost c), decide_False by exact Hne.
  reflexivity.
Qed.

(** ** The motor store and the view fan-out *)

(** C1, as stated, fails: on the initial state [_set_motor("ARM", -5)]
    stores [-5], not [0], and [_set_motor("ARM", 999)] stores [999], not
    [100]. *)
Lemma set_motor_store_not_clamped :
  returns_normally (_set_motor "ARM" (-5) init_kiosk) = true
  /\ stored "ARM" (final_state (_set_motor "ARM" (-5) init_kiosk)) = Some (-5)
  /\ stored "ARM" (final_state (_set_motor "ARM" (-5) init_kiosk))
     <> Some (clamp 0 100 (-5))
  /\ returns_normally (_set_motor "ARM" 999 init_kiosk) = true
  /\ stored "ARM" (final_state (_set_motor "ARM" 999 init_kiosk)) = Some 999
  /\ stored "ARM" (final_state (_set_motor "ARM" 999 init_kiosk))
     <> Some (clamp 0 100 999).
Proof.
  repeat split; try (vm_compute; reflexivity); vm_compute; discriminate.
Qed.

(** C1, amended: for every channel [c] and every value [v], the stored value
    of [c] at the end of [_set_motor(c, v)] is [v] itself, whether the call
    returns or raises; the store is not clamped, so the stored value equals
    [clamp(v, 0, 100)] exactly when [0 <= v <= 100].  The call returns when
    [v] and the stored values fit a C [int], and raises [OverflowError]
    (after the store write) when [v] does not. *)
Theorem set_motor_stores_input (c : string) (v : Z) (k : RobotKiosk) :
  kiosk_wf k -> c ∈ channels ->
  stored c (final_state (_set_motor c v k)) = Some v
  /\ (stored c (final_state (_set_motor c v k)) = Some (clamp 0 100 v)
      <-> 0 <= v <= 100)
  /\ (store_fits k -> fits_c_int v = true ->
      exists k', _set_motor c v k = Returns tt k')
  /\ (fits_c_int v = false ->
      exists k', _set_motor c v k = Raises OverflowError k').
Proof.
  intros Hwf Hc.
  destruct (wf_channel_known k c Hwf Hc) as [x Hx].
  assert (Hv : stored c (final_state (_set_motor c v k)) = Some v).
  { rewrite set_motor_final_stored, Hx, decide_True by reflexivity.
    reflexivity. }
  split; [exact Hv|]. split; [|split].
  - rewrite Hv. split.
    + intros Heq. apply clamp_fixed_iff. congruence.
    + intros Hr. rewrite clamp_id by exact Hr. reflexivity.
  - intros Hfits Hfv.
    destruct (set_motor_spec c v k Hwf Hfits) as (k' & Hrun & _); eauto.
  - intros Hfv. apply set_motor_overflow; assumption.
Qed.

Lemma set_motor_stores_input_witness :
  stored "WRIST" (final_state (_set_motor "WRIST" 999 init_kiosk)) = Some 999
  /\ (stored "WRIST" (final_state (_set_motor "WRIST" 999 init_kiosk))
        = Some (clamp 0 100 999) <-> 0 <= 999 <= 100)
  /\ (exists k', _set_motor "WRIST" 999 init_kiosk = Returns tt k')
  /\ stored "WRIST" (final_state (_set_motor "WRIST" 2147483648 init_kiosk))
       = Some 2147483648
  /\ (exists k', _set_motor "WRIST" 2147483648 init_kiosk
                   = Raises OverflowError k').
Proof.
  destruct (set_motor_stores_input "WRIST" 999 init_kiosk)
    as (Hs & Hiff & Hret & _).
  { exact init_kiosk_wf. }
  { in_channels. }
  destruct (set_motor_stores_input "WRIST" 2147483648 init_kiosk)
    as (Hs' & _ & _ & Hraise).
  { exact init_kiosk_wf. }
  { in_channels. }
  split; [exact Hs|]. split; [exact Hiff|]. split.
  - apply Hret; [exact init_kiosk_fits | reflexivity].
  - split; [exact Hs'|]. apply Hraise. reflexivity.
Defined.

(** C2: for every channel [c] and every value [v], after [_set_motor(c, v)]
    returns, the circular gauge and the vertical slider bound to [c] both
    display [clamp(v, 0, 100)], so all views of [c] display the same value.
    The call does return when [v] and the stored values fit a C [int]; when
    [v] does not, it raises [OverflowError] instead of returning. *)
Theorem set_motor_views_show_clamped (c : string) (v : Z) (k : RobotKiosk) :
  kiosk_wf k -> c ∈ channels ->
  (forall k', _set_motor c v k = Returns tt k' ->
     CircularProgress.value <$> gauge_of c k' = Some (clamp 0 100 v)
     /\ QAbstractSlider.value <$> slider_of c k' = Some (clamp 0 100 v)
     /\ displayed c k' = [clamp 0 100 v; clamp 0 100 v])
  /\ (store_fits k -> fits_c_int v = true ->
      exists k', _set_motor c v k = Returns tt k')
  /\ (fits_c_int v = false ->
      exists k', _set_motor c v k = Raises OverflowError k').
Proof.
  intros Hwf Hc. split; [|split].
  - intros k' Hrun.
    pose proof (set_motor_returned c v k k' Hwf Hrun) as Hpost.
    pose proof (set_motor_post_same c v k k' Hwf Hc Hpost) as Hv.
    pose proof (post_views _ _ _ _ Hpost c v Hc Hv) as Hviews.
    split; [apply Hviews|]. split; [apply Hviews|].
    apply displayed_pair, Hviews.
  - intros Hfits Hfv.
    destruct (set_motor_spec c v k Hwf Hfits) as (k' & Hrun & _); eauto.
  - intros Hfv. apply set_motor_overflow; assumption.
Qed.

Lemma set_motor_views_show_clamped_witness :
  exists k', _set_motor "TENTACLE" (-5) init_kiosk = Returns tt k'
    /\ CircularProgress.value <$> gauge_of "TENTACLE" k' = Some (clamp 0 100 (-5))
    /\ QAbstractSlider.value <$> slider_of "TENTACLE" k' = Some (clamp 0 100 (-5))
    /\ displayed "TENTACLE" k' = [clamp 0 100 (-5); clamp 0 100 (-5)].
Proof.
  destruct (set_motor_views_show_clamped "TENTACLE" (-5) init_kiosk)
    as (Hviews & Hret & _).
  { exact init_kiosk_wf. }
  { in_channels. }
  destruct (Hret init_kiosk_fits eq_refl) as [k' Hrun].
  exists k'. split; [exact Hrun|]. apply Hviews, Hrun.
Defined.

(** C5, as stated, fails: ["LEG"] is not a key of the motor dictionary, yet
    [_set_motor("LEG", 5)] returns normally; nothing is raised or reported
    to the caller. *)
Lemma set_motor_unknown_key_not_reported :
  stored "LEG" init_kiosk = None
  /\ returns_normally (_set_motor "LEG" 5 init_kiosk) = true.
Proof. split; vm_compute; reflexivity. Qed.

(** C5, amended: for every key [key] that is not in the motor dictionary and
    every value [v], the motor dictionary at the end of [_set_motor(key, v)]
    is unchanged and nothing is reported about the key: the call returns
    normally when the stored values fit a C [int], and the only exception it
    can raise is the [OverflowError] of a stored channel value that does
    not. *)
Theorem set_motor_unknown_key_ignored (key : string) (v : Z) (k : RobotKiosk) :
  kiosk_wf k -> stored key k = None ->
  motors (final_state (_set_motor key v k)) = motors k
  /\ (store_fits k ->
      exists k', _set_motor key v k = Returns tt k' /\ motors k' = motors k)
  /\ (forall e k', _set_motor key v k = Raises e k' ->
      e = OverflowError /\ ~ store_fits k).
Proof.
  intros Hwf Hkey.
  assert (Hm : motors (final_state (_set_motor key v k)) = motors k).
  { apply map_eq. intros c.
    pose proof (set_motor_final_stored key c v k) as Hc. unfold stored in *.
    rewrite Hc. case_decide as Heq; [|reflexivity].
    subst c. rewrite Hkey. reflexivity. }
  assert (Hret : store_fits k -> exists k', _set_motor key v k = Returns tt k').
  { intros Hfits.
    destruct (set_motor_spec key v k Hwf Hfits) as (k' & Hrun & _); eauto.
    intros Hc. destruct (wf_channel_known k key Hwf Hc) as [x Hx]. congruence. }
  split; [exact Hm|]. split.
  - intros Hfits. destruct (Hret Hfits) as [k' Hrun].
    exists k'. split; [exact Hrun|]. rewrite Hrun in Hm. exact Hm.
  - intros e k' Hrun.
    split; [exact (set_motor_raised key v e k k' Hwf Hrun)|].
    intros Hfits. destruct (Hret Hfits) as [k2 Hrun2]. congruence.
Qed.

Lemma set_motor_unknown_key_ignored_witness :
  motors (final_state (_set_motor "LEG" 5 init_kiosk)) = motors init_kiosk
  /\ exists k', _set_motor "LEG" 5 init_kiosk = Returns tt k'
       /\ motors k' = motors init_kiosk.
Proof.
  destruct (set_motor_unknown_key_ignored "LEG" 5 init_kiosk)
    as (Hm & Hret & _).
  { exact init_kiosk_wf. }
  { vm_compute. reflexivity. }
  split; [exact Hm|]. apply Hret. exact init_kiosk_fits.
Defined.

(** C9: for every key [c] (a known channel in particular), every value [v]
    and every channel [c'] distinct from [c], the stored value of [c'] at
    the end of [_set_motor(c, v)] is the one before, whether the call
    returns or raises; when the call returns, the gauge and the slider of
    [c'] have been set again during the fan-out (to the clamped stored value
    of [c']).  The call returns when the stored values fit a C [int] and, for
    a channel [c], [v] does. *)
Theorem set_motor_frame (c c' : string) (v : Z) (k : RobotKiosk) :
  kiosk_wf k -> c' ∈ channels -> c' <> c ->
  exists x, stored c' k = Some x
    /\ stored c' (final_state (_set_motor c v k)) = Some x
    /\ (forall k', _set_motor c v k = Returns tt k' ->
        displayed c' k' = [clamp 0 100 x; clamp 0 100 x])
    /\ (store_fits k -> (c ∈ channels -> fits_c_int v = true) ->
        exists k', _set_motor c v k = Returns tt k').
Proof.
  intros Hwf Hc' Hne.
  destruct (wf_channel_known k c' Hwf Hc') as [x Hx].
  assert (Hfin : stored c' (final_state (_set_motor c v k)) = Some x).
  { rewrite set_motor_final_stored, decide_False by congruence. exact Hx. }
  exists x. split; [exact Hx|]. split; [exact Hfin|]. split.
  - intros k' Hrun.
    pose proof (set_motor_returned c v k k' Hwf Hrun) as Hpost.
    rewrite Hrun in Hfin. cbn in Hfin.
    apply displayed_pair, (post_views _ _ _ _ Hpost); assumption.
  - intros Hfits Hfv.
    destruct (set_motor_spec c v k Hwf Hfits Hfv) as (k' & Hrun & _); eauto.
Qed.

Lemma set_motor_frame_witness :
  exists x k', stored "WRIST" init_kiosk = Some x
    /\ stored "WRIST" (final_state (_set_motor "ARM" 70 init_kiosk)) = Some x
    /\ _set_motor "ARM" 70 init_kiosk = Returns tt k'
    /\ displayed "WRIST" k' = [clamp 0 100 x; clamp 0 100 x].
Proof.
  destruct (set_motor_frame "ARM" "WRIST" 70 init_kiosk)
    as (x & Hx & Hfin & Hviews & Hret).
  { exact init_kiosk_wf. }
  { in_channels. }
  { discriminate. }
  destruct (Hret init_kiosk_fits (fun _ => eq_refl)) as [k' Hrun].
  exists x, k'. split; [exact Hx|]. split; [exact Hfin|].
  split; [exact Hrun|]. apply Hviews, Hrun.
Defined.

(** ** Presets *)

(** A call that returned kept the keys of the dictionary. *)
Lemma set_motor_post_keys (key c : string) (v : Z) (k k' : RobotKiosk) :
  set_motor_post key v k k' -> is_Some (stored c k') -> is_Some (stored c k).
Proof.
  intros Hpost. rewrite (post_stored _ _ _ _ Hpost c).
  case_decide; [|auto]. destruct (stored c k); cbn; [eauto|].
  intros [? [=]].
Qed.

(** Three successive writes, as the loop of [_apply_preset] makes them. *)
Lemma for_each_three_channels (a w t : Z) (k : RobotKiosk) :
  kiosk_wf k -> store_fits k ->
  fits_c_int a = true -> fits_c_int w = true -> fits_c_int t = true ->
  exists k',
    for_each [("ARM", a); ("WRIST", w); ("TENTACLE", t)]
      (fun kv => _set_motor (fst kv) (snd kv)) k = Returns tt k'
    /\ stored "ARM" k' = Some a
    /\ stored "WRIST" k' = Some w
    /\ stored "TENTACLE" k' = Some t
    /\ kiosk_wf k' /\ store_fits k'
    /\ stack k' = stack k
    /\ batt_val k' = batt_val k
    /\ (forall c, is_Some (stored c k') -> is_Some (stored c k)).
Proof.
  intros Hwf Hfits Fa Fw Ft.
  destruct (set_motor_spec "ARM" a k Hwf Hfits (fun _ => Fa)) as (k1 & Hrun1 & P1).
  pose proof (post_wf _ _ _ _ P1) as Hwf1.
  pose proof (post_fits _ _ _ _ P1) as Hfits1.
  destruct (set_motor_spec "WRIST" w k1 Hwf1 Hfits1 (fun _ => Fw))
    as (k2 & Hrun2 & P2).
  pose proof (post_wf _ _ _ _ P2) as Hwf2.
  pose proof (post_fits _ _ _ _ P2) as Hfits2.
  destruct (set_motor_spec "TENTACLE" t k2 Hwf2 Hfits2 (fun _ => Ft))
    as (k3 & Hrun3 & P3).
  exists k3. split.
  { cbn [for_each fst snd]. unfold mbind, M_bind.
    rewrite Hrun1, Hrun2, Hrun3. reflexivity. }
  split.
  { rewrite (set_motor_post_other "TENTACLE" "ARM" t k2 k3) by (discriminate || exact P3).
    rewrite (set_motor_post_other "WRIST" "ARM" w k1 k2) by (discriminate || exact P2).
    apply (set_motor_post_same "ARM" a k k1 Hwf); [in_channels | exact P1]. }
  split.
  { rewrite (set_motor_post_other "TENTACLE" "WRIST" t k2 k3) by (discriminate || exact P3).
    apply (set_motor_post_same "WRIST" w k1 k2 Hwf1); [in_channels | exact P2]. }
  split.
  { apply (set_motor_post_same "TENTACLE" t k2 k3 Hwf2); [in_channels | exact P3]. }
  split; [exact (post_wf _ _ _ _ P3)|].
  split; [exact (post_fits _ _ _ _ P3)|].
  split; [|split].
  - rewrite (post_stack _ _ _ _ P3), (post_stack _ _ _ _ P2).
    exact (post_stack _ _ _ _ P1).
  - rewrite (post_batt_val _ _ _ _ P3), (post_batt_val _ _ _ _ P2).
    exact (post_batt_val _ _ _ _ P1).
  - intros c Hc.
    apply (set_motor_post_keys _ c _ _ _ P1), (set_motor_post_keys _ c _ _ _ P2),
      (set_motor_post_keys _ c _ _ _ P3), Hc.
Qed.

(** A loop of writes on a well-formed state can raise nothing but
    [OverflowError]. *)
Lemma for_each_set_motor_raised (l : list (string * Z)) (e : Exn)
    (k k' : RobotKiosk) :
  kiosk_wf k ->
  for_each l (fun kv => _set_motor (fst kv) (snd kv)) k = Raises e k' ->
  e = OverflowError.
Proof.
  revert k. induction l as [|[key v] l IH]; intros k Hwf; cbn [for_each fst snd].
  - discriminate.
  - unfold mbind, M_bind.
    destruct (_set_motor key v k) as [[] k1|e1 k1] eqn:Hrun.
    + apply IH. exact (post_wf _ _ _ _ (set_motor_returned key v k k1 Hwf Hrun)).
    + intros [= <- <-]. exact (set_motor_raised key v e1 k k1 Hwf Hrun).
Qed.

(** The values of every preset fit a C [int]. *)
Lemma preset_vals_cases (name : string) :
  exists a w t,
    preset_vals name = [("ARM", a); ("WRIST", w); ("TENTACLE", t)]
    /\ 0 <= a <= 100 /\ 0 <= w <= 100 /\ 0 <= t <= 100.
Proof.
  unfold preset_vals.
  destruct (String.eqb name "Stand"); [|destruct (String.eqb name "Wave")];
    do 3 eexists; (split; [reflexivity|lia]).
Qed.

(** [_apply_preset] returns on every well-formed state whose stored values
    fit a C [int], and keeps it so. *)
Lemma apply_preset_returns (name : string) (k : RobotKiosk) :
  kiosk_wf k -> store_fits k ->
  exists k', _apply_preset name k = Returns tt k'
    /\ kiosk_wf k' /\ store_fits k'
    /\ stack k' = stack k /\ batt_val k' = batt_val k
    /\ (forall c, is_Some (stored c k') -> is_Some (stored c k)).
Proof.
  intros Hwf Hfits. unfold _apply_preset.
  destruct (preset_vals_cases name) as (a & w & t & -> & Ha & Hw & Ht).
  destruct (for_each_three_channels a w t k Hwf Hfits)
    as (k' & Hrun & _ & _ & _ & Hwf' & Hfits' & Hstack & Hbatt & Hkeys);
    try (apply fits_c_int_percent; assumption).
  exists k'. auto 10.
Qed.

(** C10: [_apply_preset] rejects no name.  For every name it returns when
    the stored values fit a C [int]; ["Stand"] stores ARM=30, WRIST=40,
    TENTACLE=10, ["Wave"] stores ARM=80, WRIST=60, TENTACLE=10, and every
    other name, not only ["Relax"], stores ARM=40, WRIST=30, TENTACLE=20.
    The only exception it can raise is the [OverflowError] of a value already
    stored that does not fit a C [int], whatever the name. *)
Theorem apply_preset_total (name : string) (k : RobotKiosk) :
  kiosk_wf k ->
  (store_fits k ->
   exists k', _apply_preset name k = Returns tt k'
     /\ (stored "ARM" k', stored "WRIST" k', stored "TENTACLE" k') =
        (if decide (name = "Stand") then (Some 30, Some 40, Some 10)
         else if decide (name = "Wave") then (Some 80, Some 60, Some 10)
         else (Some 40, Some 30, Some 20)))
  /\ (forall e k', _apply_preset name k = Raises e k' ->
      e = OverflowError /\ ~ store_fits k).
Proof.
  intros Hwf.
  assert (Hret : store_fits k ->
     exists k', _apply_preset name k = Returns tt k'
       /\ (stored "ARM" k', stored "WRIST" k', stored "TENTACLE" k') =
          (if decide (name = "Stand") then (Some 30, Some 40, Some 10)
           else if decide (name = "Wave") then (Some 80, Some 60, Some 10)
           else (Some 40, Some 30, Some 20))).
  { intros Hfits. unfold _apply_preset, preset_vals.
    destruct (String.eqb_spec name "Stand") as [-> | Hs].
    { destruct (for_each_three_channels 30 40 10 k Hwf Hfits)
        as (k' & Hrun & Ha & Hw & Ht & _); try reflexivity.
      exists k'. split; [exact Hrun|]. rewrite Ha, Hw, Ht. reflexivity. }
    rewrite decide_False by exact Hs.
    destruct (String.eqb_spec name "Wave") as [-> | Hw'].
    { destruct (for_each_three_channels 80 60 10 k Hwf Hfits)
        as (k' & Hrun & Ha & Hw & Ht & _); try reflexivity.
      exists k'. split; [exact Hrun|]. rewrite Ha, Hw, Ht. reflexivity. }
    rewrite decide_False by exact Hw'.
    destruct (for_each_three_channels 40 30 20 k Hwf Hfits)
      as (k' & Hrun & Ha & Hw & Ht & _); try reflexivity.
    exists k'. split; [exact Hrun|]. rewrite Ha, Hw, Ht. reflexivity. }
  split; [exact Hret|].
  intros e k' Hrun. split.
  - exact (for_each_set_motor_raised _ e k k' Hwf Hrun).
  - intros Hfits. destruct (Hret Hfits) as (k2 & Hrun2 & _). congruence.
Qed.

Lemma apply_preset_total_witness :
  exists k', _apply_preset "Dance" init_kiosk = Returns tt k'
    /\ (stored "ARM" k', stored "WRIST" k', stored "TENTACLE" k') =
       (if decide ("Dance" = "Stand") then (Some 30, Some 40, Some 10)
        else if decide ("Dance" = "Wave") then (Some 80, Some 60, Some 10)
        else (Some 40, Some 30, Some 20)).
Proof.
  destruct (apply_preset_total "Dance" init_kiosk init_kiosk_wf) as [Hret _].
  apply Hret. exact init_kiosk_fits.
Defined.

(** ** The battery tick *)

(** A tick never raises; it changes the battery attributes only. *)
Lemma simulate_battery_returns (d : BatteryDraws) (k : RobotKiosk) :
  let b := next_percent d (batt_val k) in
  _simulate_battery d k =
  Returns tt
    (with_batt_large_label
       (fun _ => battery_glyph +:+ " " +:+ pretty b +:+ "%")
      (with_batt_label
         (fun _ => battery_glyph +:+ " " +:+ pretty b
                   +:+ "% (" +:+ format_2f (linear_voltage b) +:+ "V)")
        (with_batt_val (fun _ => b) k))).
Proof.
  unfold _simulate_battery, next_percent, linear_voltage,
    mbind, M_bind, modify, get, mret, M_ret.
  cbn. destruct (recharges d _); reflexivity.
Qed.

Lemma random_choice_decrement (i : nat) :
  (i < 3)%nat ->
  random_choice i [0; 0; 1] = 0 \/ random_choice i [0; 0; 1] = 1.
Proof.
  intros Hi. destruct i as [|[|[|i]]]; cbn; auto; lia.
Qed.

(** The final clamp puts the percent in [0, 100] whatever the draws and
    the percent before. *)
Lemma next_percent_range (d : BatteryDraws) (b : Z) :
  0 <= next_percent d b <= 100.
Proof. unfold next_percent. cbv zeta. lia. Qed.

(** For every percent in [0, 100] the binary64 voltage prints, with two
    decimals, as the real number [11 + 1.6 * p / 100] does: the rounding
    errors of the float operations never reach the label. *)
Lemma voltage_text_exact (p : Z) :
  0 <= p <= 100 -> format_2f (linear_voltage p) = exact_2f p.
Proof.
  intros Hp.
  assert (Hall : forallb
            (fun p => String.eqb (format_2f (linear_voltage p)) (exact_2f p))
            (seqZ 0 101) = true) by (vm_compute; reflexivity).
  rewrite forallb_forall in Hall.
  apply String.eqb_eq, Hall, list_elem_of_In, elem_of_seqZ. lia.
Qed.

(** Rounding [num / 5] to an integer lands within a half of it; a tie is
    not possible with an odd denominator. *)
Lemma round_half_even_nearest (num : Z) :
  2 * Z.abs (5 * round_half_even num 5 - num) < 5.
Proof.
  unfold round_half_even.
  pose proof (Z.div_mod num 5 ltac:(lia)) as Hdm.
  pose proof (Z.mod_pos_bound num 5 ltac:(lia)) as Hr.
  destruct (Z.ltb_spec (2 * (num mod 5)) 5); [lia|].
  destruct (Z.ltb_spec 5 (2 * (num mod 5))); lia.
Qed.

(** C6: for every battery value in [0, 100] and all draws, after one
    [_simulate_battery] tick the value is in [0, 100]; on a tick without
    recharge it decreases by exactly 0 or 1; the recharge branch is taken
    only when the value after the decrement is below 20 (it then adds the
    drawn amount, 8 to 25), and the value can only grow on such a tick. *)
Theorem battery_tick_invariant (d : BatteryDraws) (k : RobotKiosk) :
  0 <= batt_val k <= 100 -> valid_draws d ->
  let after_decrement := batt_val k - random_choice (choice_index d) [0; 0; 1] in
  exists k', _simulate_battery d k = Returns tt k'
    /\ 0 <= batt_val k' <= 100
    /\ (recharges d after_decrement = false ->
        batt_val k - batt_val k' = 0 \/ batt_val k - batt_val k' = 1)
    /\ (recharges d after_decrement = true ->
        after_decrement < 20
        /\ batt_val k' = after_decrement + randint_value d)
    /\ (batt_val k < batt_val k' ->
        recharges d after_decrement = true /\ after_decrement < 20).
Proof.
  intros Hb (Hi & _ & _ & Hr) after_decrement.
  eexists. split; [apply simulate_battery_returns|].
  cbn. unfold next_percent. fold after_decrement.
  pose proof (random_choice_decrement _ Hi) as Hc.
  assert (Hlt : recharges d after_decrement = true -> after_decrement < 20).
  { unfold recharges. intros H. apply andb_true_iff in H as [H _]. lia. }
  destruct (recharges d after_decrement) eqn:E.
  - specialize (Hlt eq_refl). subst after_decrement.
    repeat split; try lia; discriminate.
  - subst after_decrement. repeat split; try lia; discriminate.
Qed.

Lemma battery_tick_invariant_witness :
  exists k',
    _simulate_battery (Build_BatteryDraws 2 0.1 25)
      (with_batt_val (fun _ => 19) init_kiosk) = Returns tt k'
    /\ 0 <= batt_val k' <= 100
    /\ (recharges (Build_BatteryDraws 2 0.1 25) (19 - 1) = false ->
        19 - batt_val k' = 0 \/ 19 - batt_val k' = 1)
    /\ (recharges (Build_BatteryDraws 2 0.1 25) (19 - 1) = true ->
        19 - 1 < 20 /\ batt_val k' = 19 - 1 + 25)
    /\ (19 < batt_val k' ->
        recharges (Build_BatteryDraws 2 0.1 25) (19 - 1) = true /\ 19 - 1 < 20).
Proof.
  apply (battery_tick_invariant (Build_BatteryDraws 2 0.1 25)
           (with_batt_val (fun _ => 19) init_kiosk)).
  - simpl. lia.
  - repeat split; try (vm_compute; reflexivity); simpl; lia.
Defined.

(** C7: every tick publishes, in the same label, the percent [p] it stores
    and a voltage text, and that text is pinned to [p]: it is the binary64
    value [11.0 + (p / 100) * 1.6] printed with two decimals, and its digits
    are [n / 100] and [n mod 100] for the number [n] of hundredths of a volt
    nearest to the real [11 + 1.6 * p / 100], that is to [(5500 + 8 * p) / 5]
    hundredths.  The large label shows the same [p]. *)
Theorem battery_voltage_consistent (d : BatteryDraws) (k : RobotKiosk) :
  exists k' p n,
    _simulate_battery d k = Returns tt k'
    /\ batt_val k' = p /\ 0 <= p <= 100
    /\ batt_large_label k' = battery_glyph +:+ " " +:+ pretty p +:+ "%"
    /\ batt_label k' =
       battery_glyph +:+ " " +:+ pretty p +:+ "% ("
       +:+ format_2f (11.0 + (float_of_int p / 100.0) * 1.6)%float +:+ "V)"
    /\ batt_label k' =
       battery_glyph +:+ " " +:+ pretty p +:+ "% ("
       +:+ (pretty (n / 100) +:+ "." +:+ two_digits (n mod 100)) +:+ "V)"
    /\ 2 * Z.abs (5 * n - (5500 + 8 * p)) < 5.
Proof.
  pose proof (next_percent_range d (batt_val k)) as Hp.
  pose proof (voltage_text_exact _ Hp) as Htext.
  eexists. exists (next_percent d (batt_val k)).
  exists (round_half_even (5500 + 8 * next_percent d (batt_val k)) 5).
  split; [apply simulate_battery_returns|].
  split; [reflexivity|]. split; [exact Hp|]. split; [reflexivity|].
  split; [reflexivity|]. split.
  - cbn [batt_label with_batt_large_label with_batt_label].
    rewrite Htext. reflexivity.
  - apply round_half_even_nearest.
Qed.

(** ** The dial dialog *)

Lemma exec_returns (events : list ModalEvent) (dlg : DialDialog.t) (k : RobotKiosk) :
  exec_ events dlg k = Returns (dial_after events dlg) (ticks_after events k).
Proof.
  revert dlg k. induction events as [|[v|d] events IH]; intros dlg k; cbn.
  - reflexivity.
  - apply IH.
  - unfold mbind, M_bind. rewrite simulate_battery_returns.
    cbn [final_state]. apply IH.
Qed.

Lemma simulate_battery_motor_side (d : BatteryDraws) (k : RobotKiosk) :
  motor_side (final_state (_simulate_battery d k)) = motor_side k
  /\ stack (final_state (_simulate_battery d k)) = stack k.
Proof. rewrite simulate_battery_returns. split; reflexivity. Qed.

Lemma ticks_after_motor_side (events : list ModalEvent) (k : RobotKiosk) :
  motor_side (ticks_after events k) = motor_side k
  /\ stack (ticks_after events k) = stack k.
Proof.
  revert k. induction events as [|[v|d] events IH]; intros k; cbn.
  - split; reflexivity.
  - apply IH.
  - destruct (IH (final_state (_simulate_battery d k))) as [-> ->].
    apply simulate_battery_motor_side.
Qed.

Lemma motor_side_motors (k k' : RobotKiosk) :
  motor_side k' = motor_side k -> motors k' = motors k.
Proof. unfold motor_side. intros H. injection H as Hm _. exact Hm. Qed.

Lemma motor_side_wf (k k' : RobotKiosk) :
  motor_side k' = motor_side k -> kiosk_wf k -> kiosk_wf k'.
Proof.
  unfold motor_side. intros H Hwf. injection H as Hm _ _ _ Hsa Hsw Hst _.
  destruct Hwf. split; congruence.
Qed.

Lemma motor_side_fits (k k' : RobotKiosk) :
  motor_side k' = motor_side k -> store_fits k -> store_fits k'.
Proof.
  intros H Hfits c x Hc. unfold stored.
  rewrite (motor_side_motors _ _ H). apply Hfits, Hc.
Qed.

Lemma motor_side_displayed (c : string) (k k' : RobotKiosk) :
  motor_side k' = motor_side k -> displayed c k' = displayed c k.
Proof.
  unfold motor_side. intros H. injection H as _ Hca Hcw Hct Hsa Hsw Hst _.
  unfold displayed, gauge_of, slider_of. rewrite Hca, Hcw, Hct, Hsa, Hsw, Hst.
  reflexivity.
Qed.

(** The constructor of the dialog: it builds [dial_opened] when the initial
    value fits a C [int], and raises [OverflowError] otherwise. *)
Lemma dial_new_fits (title : string) (initial : Z) :
  fits_c_int initial = true ->
  DialDialog.new title initial = Ok (dial_opened title initial).
Proof.
  intros H. unfold DialDialog.new. rewrite setValue_fits by exact H.
  reflexivity.
Qed.

Lemma dial_new_overflow (title : string) (initial : Z) :
  fits_c_int initial = false ->
  DialDialog.new title initial = Err OverflowError.
Proof.
  intros H. unfold DialDialog.new. rewrite setValue_overflow by exact H.
  reflexivity.
Qed.

Lemma dial_new_range (title : string) (initial : Z) :
  dial_range (dial_opened title initial).
Proof. split; reflexivity. Qed.

Lemma dial_turn_range (v : Z) (dlg : DialDialog.t) :
  dial_range dlg -> dial_range (DialDialog.turn v dlg).
Proof.
  unfold dial_range, DialDialog.turn.
  destruct (QAbstractSlider.emitted v (DialDialog.dial dlg)); cbn; auto.
Qed.

Lemma dial_turn_value (v : Z) (dlg : DialDialog.t) :
  dial_range dlg -> DialDialog.get_value (DialDialog.turn v dlg) = clamp 0 100 v.
Proof.
  intros [Hlo Hhi]. unfold DialDialog.turn, DialDialog.get_value.
  destruct (QAbstractSlider.emitted v (DialDialog.dial dlg)); cbn;
    unfold QAbstractSlider.bound; rewrite Hlo, Hhi; reflexivity.
Qed.

Lemma dial_after_range (events : list ModalEvent) (dlg : DialDialog.t) :
  dial_range dlg -> dial_range (dial_after events dlg).
Proof.
  revert dlg. induction events as [|[v|d] events IH]; intros dlg H; cbn; auto.
  apply IH, dial_turn_range, H.
Qed.

Lemma dial_after_timeouts (events : list ModalEvent) (dlg : DialDialog.t) :
  Forall is_timeout events -> dial_after events dlg = dlg.
Proof.
  induction 1 as [|[v|d] events Hev _ IH]; cbn; auto. destruct Hev.
Qed.

Lemma dial_after_app (pre post : list ModalEvent) (dlg : DialDialog.t) :
  dial_after (pre ++ post) dlg = dial_after post (dial_after pre dlg).
Proof.
  revert dlg. induction pre as [|[v|d] pre IH]; intros dlg; cbn; auto.
Qed.

(** The value read back from the dial is the last position it was turned
    to. *)
Lemma dial_after_last_turn (pre post : list ModalEvent) (v : Z) (dlg : DialDialog.t) :
  dial_range dlg -> Forall is_timeout post ->
  DialDialog.get_value (dial_after (pre ++ DialTurned v :: post) dlg) = clamp 0 100 v.
Proof.
  intros Hr Hpost. rewrite dial_after_app. cbn [dial_after].
  rewrite dial_after_timeouts by exact Hpost.
  apply dial_turn_value, dial_after_range, Hr.
Qed.

(** Opening the dialog snapshots the stored value into the dial. *)
Lemma dial_opens_with_stored_value (title : string) (x : Z) :
  DialDialog.get_value (dial_opened title x) = clamp 0 100 x.
Proof. reflexivity. Qed.

(** The session up to the closing of the dialog: when the initial value
    fits a C [int], [_open_dial] reaches the test of the result code with
    the dial as the operator left it. *)
Lemma open_dial_unfold (c : string) (events : list ModalEvent) (code : DialogCode)
    (k : RobotKiosk) :
  fits_c_int (default 50 (motors k !! c)) = true ->
  _open_dial c events code k =
  let dlg := dial_after events
               (dial_opened (c +:+ " Control") (default 50 (motors k !! c))) in
  if decide (code = Accepted)
  then _set_motor c (DialDialog.get_value dlg) (ticks_after events k)
  else Returns tt (ticks_after events k).
Proof.
  intros Hfits.
  unfold _open_dial, mbind, M_bind, get, lift.
  rewrite dial_new_fits by exact Hfits. rewrite exec_returns.
  destruct (decide (code = Accepted)); reflexivity.
Qed.

(** When it does not, the constructor of the dialog raises: the dialog never
    opens and the state is untouched. *)
Lemma open_dial_overflow (c : string) (events : list ModalEvent) (code : DialogCode)
    (k : RobotKiosk) :
  fits_c_int (default 50 (motors k !! c)) = false ->
  _open_dial c events code k = Raises OverflowError k.
Proof.
  intros Hfits.
  unfold _open_dial, mbind, M_bind, get, lift.
  rewrite dial_new_overflow by exact Hfits. reflexivity.
Qed.

(** The initial value of the dialog fits when the stored values do. *)
Lemma open_dial_initial_fits (c : string) (k : RobotKiosk) :
  store_fits k -> c ∈ channels \/ motors k !! c = None ->
  fits_c_int (default 50 (motors k !! c)) = true.
Proof.
  intros Hfits [Hc | Hnone].
  - destruct (motors k !! c) as [x|] eqn:Hx; [|reflexivity].
    exact (Hfits c x Hc Hx).
  - rewrite Hnone. reflexivity.
Qed.

(** C3: for every channel [c], opening the dial dialog on [c], turning the
    dial so that its last position is 77, and closing with accept stores 77
    for [c], makes the gauge and the slider of [c] show 77, and calls
    [_set_motor] exactly once: the call log grows by the single entry
    [(c, 77)].  This is so when the stored values fit a C [int]; when the
    stored value of [c] does not, the dialog does not open: its constructor
    raises [OverflowError] and nothing changes. *)
Theorem dial_commit (c : string) (pre post : list ModalEvent) (k : RobotKiosk) :
  kiosk_wf k -> c ∈ channels -> Forall is_timeout post ->
  (store_fits k ->
   exists k', _open_dial c (pre ++ DialTurned 77 :: post) Accepted k = Returns tt k'
     /\ stored c k' = Some 77
     /\ displayed c k' = [77; 77]
     /\ set_motor_calls k' = (set_motor_calls k ++ [(c, 77)])%list)
  /\ (forall x, stored c k = Some x -> fits_c_int x = false ->
      _open_dial c (pre ++ DialTurned 77 :: post) Accepted k
        = Raises OverflowError k).
Proof.
  intros Hwf Hc Hpost. split.
  - intros Hfits.
    set (events := (pre ++ DialTurned 77 :: post)%list).
    destruct (ticks_after_motor_side events k) as [Hside _].
    pose proof (motor_side_wf _ _ Hside Hwf) as Hwf2.
    pose proof (motor_side_fits _ _ Hside Hfits) as Hfits2.
    rewrite open_dial_unfold by (apply open_dial_initial_fits; auto).
    cbv zeta. rewrite decide_True by reflexivity.
    unfold events at 1.
    rewrite dial_after_last_turn by (exact Hpost || apply dial_new_range).
    change (clamp 0 100 77) with 77.
    destruct (set_motor_spec c 77 _ Hwf2 Hfits2 (fun _ => eq_refl))
      as (k' & Hrun & Hsm).
    pose proof (set_motor_post_same c 77 _ k' Hwf2 Hc Hsm) as Hst.
    exists k'. split; [exact Hrun|]. split; [exact Hst|]. split.
    + apply (displayed_pair c k' 77), (post_views _ _ _ _ Hsm); assumption.
    + rewrite (post_calls _ _ _ _ Hsm). unfold motor_side in Hside.
      injection Hside as _ _ _ _ _ _ _ Hl. rewrite Hl. reflexivity.
  - intros x Hx Hbad. apply open_dial_overflow.
    unfold stored in Hx. rewrite Hx. exact Hbad.
Qed.

Lemma dial_commit_witness :
  exists k',
    _open_dial "ARM"
      ([DialTurned 12; BatteryTimeout (Build_BatteryDraws 2 0.5 9)]
       ++ DialTurned 77 :: [BatteryTimeout (Build_BatteryDraws 0 0.9 8)])
      Accepted init_kiosk = Returns tt k'
    /\ stored "ARM" k' = Some 77
    /\ displayed "ARM" k' = [77; 77]
    /\ set_motor_calls k' = (set_motor_calls init_kiosk ++ [("ARM", 77)])%list.
Proof.
  destruct (dial_commit "ARM"
           [DialTurned 12; BatteryTimeout (Build_BatteryDraws 2 0.5 9)]
           [BatteryTimeout (Build_BatteryDraws 0 0.9 8)] init_kiosk)
    as [Hret _].
  - exact init_kiosk_wf.
  - in_channels.
  - repeat constructor.
  - apply Hret. exact init_kiosk_fits.
Defined.

(** C4: for every channel [c] (indeed every name) and every sequence of
    events inside the dialog, closing without accepting ends with the motor
    dictionary, every gauge and slider, and the call log of [_set_motor]
    exactly as they were before the dialog opened: no write happens on the
    cancel path.  The call returns when the stored value of [c] (50 for an
    unknown name) fits a C [int]; otherwise the constructor of the dialog
    raises [OverflowError] before the dialog opens, and the state is the one
    before the call. *)
Theorem dial_cancel (c : string) (events : list ModalEvent) (k : RobotKiosk) :
  (motors (final_state (_open_dial c events Rejected k)) = motors k
   /\ stored c (final_state (_open_dial c events Rejected k)) = stored c k
   /\ (forall ch, displayed ch (final_state (_open_dial c events Rejected k))
                  = displayed ch k)
   /\ motor_side (final_state (_open_dial c events Rejected k)) = motor_side k
   /\ set_motor_calls (final_state (_open_dial c events Rejected k))
      = set_motor_calls k)
  /\ (fits_c_int (default 50 (stored c k)) = true ->
      exists k', _open_dial c events Rejected k = Returns tt k')
  /\ (fits_c_int (default 50 (stored c k)) = false ->
      _open_dial c events Rejected k = Raises OverflowError k).
Proof.
  unfold stored at 3 4.
  destruct (fits_c_int (default 50 (motors k !! c))) eqn:Hfits.
  - rewrite open_dial_unfold by exact Hfits.
    cbv zeta. rewrite decide_False by discriminate. cbn [final_state].
    destruct (ticks_after_motor_side events k) as [Hside _].
    pose proof Hside as Hs. unfold motor_side in Hs.
    injection Hs as Hm _ _ _ _ _ _ Hlog.
    split; [|split; [eauto | discriminate]].
    split; [exact Hm|]. split; [unfold stored; congruence|].
    split; [intros ch; apply motor_side_displayed, Hside|].
    split; [exact Hside | exact Hlog].
  - rewrite open_dial_overflow by exact Hfits. cbn [final_state].
    split; [|split; [discriminate | reflexivity]].
    repeat split; reflexivity.
Qed.

(** ** Navigation *)

Lemma page_buttons_nav_button :
  page_buttons = nav_button <$> [Home; Motor; Sensors; Settings].
Proof. reflexivity. Qed.

Lemma alter_shown_pages (b : bool) (i : nat) (ws : list (Page * bool)) :
  fst <$> alter (QStackedWidget.set_shown b) i ws = fst <$> ws.
Proof.
  rewrite (list_fmap_alter fst (QStackedWidget.set_shown b) id).
  - apply list_alter_id. reflexivity.
  - apply Forall_forall. intros x _. reflexivity.
Qed.

Lemma filter_all_hidden (ws : list (Page * bool)) :
  (forall j w, ws !! j = Some w -> snd w = false) ->
  filter (fun w => snd w = true) ws = [].
Proof.
  induction ws as [|w0 ws IH]; intros H; [reflexivity|].
  rewrite filter_cons_False.
  - apply IH. intros j w Hj. apply (H (S j) w Hj).
  - rewrite (H 0%nat w0 eq_refl). discriminate.
Qed.

Lemma filter_shown_only (ws : list (Page * bool)) (i : nat) (w : Page * bool) :
  shown_only i ws -> ws !! i = Some w ->
  filter (fun w => snd w = true) ws = [w].
Proof.
  revert i. induction ws as [|w0 ws IH]; intros i H Hi; [discriminate|].
  destruct i as [|i]; cbn in Hi.
  - injection Hi as ->.
    rewrite filter_cons_True by (rewrite (H 0%nat w eq_refl); reflexivity).
    f_equal. apply filter_all_hidden.
    intros j x Hj. rewrite (H (S j) x Hj). reflexivity.
  - rewrite filter_cons_False
      by (rewrite (H 0%nat w0 eq_refl); discriminate).
    apply (IH i); [|exact Hi].
    intros j x Hj. rewrite (H (S j) x Hj).
    apply bool_decide_ext. lia.
Qed.

Lemma setCurrentIndex_pages (i : Z) (s : QStackedWidget.t) :
  fst <$> QStackedWidget.widgets (QStackedWidget.setCurrentIndex i s)
  = fst <$> QStackedWidget.widgets s.
Proof.
  unfold QStackedWidget.setCurrentIndex.
  destruct (_ || _); [reflexivity|].
  destruct (i =? _); [reflexivity|].
  destruct (_ <? 0); cbn; rewrite ?alter_shown_pages; reflexivity.
Qed.

(** [setCurrentIndex] keeps the invariant, whatever the index. *)
Lemma setCurrentIndex_one_current (i : Z) (s : QStackedWidget.t) :
  one_current s -> one_current (QStackedWidget.setCurrentIndex i s).
Proof.
  intros (c & Hc & Hlt & Hshown).
  unfold QStackedWidget.setCurrentIndex, QStackedWidget.count.
  destruct (_ || _) eqn:Hrange; [exists c; auto|].
  destruct (i =? _) eqn:Hsame; [exists c; auto|].
  apply orb_false_iff in Hrange as [Hlo Hhi].
  apply Z.ltb_ge in Hlo. apply Z.leb_gt in Hhi. apply Z.eqb_neq in Hsame.
  rewrite Hc in *.
  replace (Z.of_nat c <? 0) with false by (symmetry; apply Z.ltb_ge; lia).
  rewrite Nat2Z.id.
  exists (Z.to_nat i). cbn. rewrite !length_alter.
  split; [lia|]. split; [lia|].
  intros j w Hj.
  rewrite list_lookup_alter in Hj. case_decide as Hjc.
  - subst j. rewrite list_lookup_alter_ne in Hj by lia.
    destruct (QStackedWidget.widgets s !! c) as [w0|]; [|discriminate].
    injection Hj as <-. cbn. symmetry. apply bool_decide_eq_false. lia.
  - rewrite list_lookup_alter in Hj. case_decide as Hji.
    + subst j.
      destruct (QStackedWidget.widgets s !! Z.to_nat i) as [w0|]; [|discriminate].
      injection Hj as <-. cbn. symmetry. apply bool_decide_eq_true. reflexivity.
    + rewrite (Hshown j w Hj).
      rewrite !bool_decide_eq_false_2 by congruence. reflexivity.
Qed.

(** A valid index becomes the current one. *)
Lemma setCurrentIndex_selects (i : Z) (s : QStackedWidget.t) :
  0 <= i < QStackedWidget.count s ->
  QStackedWidget.currentIndex (QStackedWidget.setCurrentIndex i s) = i.
Proof.
  intros Hi. unfold QStackedWidget.setCurrentIndex.
  replace (_ || _) with false
    by (symmetry; apply orb_false_iff; split;
        [apply Z.ltb_ge | apply Z.leb_gt]; lia).
  destruct (i =? _) eqn:Hsame; [apply Z.eqb_eq in Hsame; auto|].
  reflexivity.
Qed.

(** Under the invariant the visible pages are exactly the current one. *)
Lemma one_current_visible (s : QStackedWidget.t) :
  one_current s ->
  exists p, QStackedWidget.currentWidget s = Some p
    /\ QStackedWidget.visible_pages s = [p]
    /\ (fst <$> QStackedWidget.widgets s)
         !! Z.to_nat (QStackedWidget.currentIndex s) = Some p.
Proof.
  intros (c & Hc & Hlt & Hshown).
  destruct (lookup_lt_is_Some_2 _ _ Hlt) as [w Hw].
  exists (fst w).
  unfold QStackedWidget.currentWidget, QStackedWidget.visible_pages.
  rewrite Hc, Nat2Z.id.
  replace (Z.of_nat c <? 0) with false by (symmetry; apply Z.ltb_ge; lia).
  rewrite list_lookup_fmap, Hw.
  rewrite (filter_shown_only _ c w Hshown Hw). auto.
Qed.

Lemma init_kiosk_nav_wf : nav_wf (stack init_kiosk).
Proof.
  split; [reflexivity|].
  exists 0%nat. split; [reflexivity|].
  change (QStackedWidget.widgets (stack init_kiosk))
    with [(Home, true); (Motor, false); (Sensors, false); (Settings, false)].
  split; [cbn; lia|].
  intros [|[|[|[|j]]]] w Hj; cbn in Hj; try discriminate;
    injection Hj as <-; reflexivity.
Qed.

Lemma on_nav_returns (sender : option QPushButton.t) (k : RobotKiosk) :
  _on_nav sender k =
  Returns tt
    match sender with
    | Some b =>
        with_stack (QStackedWidget.setCurrentIndex (QPushButton.page_index b)) k
    | None => k
    end.
Proof. destruct sender; reflexivity. Qed.

Lemma on_nav_nav_wf (sender : option QPushButton.t) (k : RobotKiosk) :
  nav_wf (stack k) -> nav_wf (stack (final_state (_on_nav sender k))).
Proof.
  intros [Hpages Hone]. rewrite on_nav_returns.
  destruct sender as [b|]; cbn; [|split; assumption].
  split.
  - rewrite setCurrentIndex_pages. exact Hpages.
  - apply setCurrentIndex_one_current, Hone.
Qed.

(** A sequence of navigation requests returns and keeps the invariant; it
    does not touch the motor side. *)
Lemma nav_sequence_returns (senders : list (option QPushButton.t)) (k : RobotKiosk) :
  nav_wf (stack k) ->
  exists k', for_each senders _on_nav k = Returns tt k'
    /\ nav_wf (stack k')
    /\ motor_side k' = motor_side k.
Proof.
  revert k. induction senders as [|sender senders IH]; intros k Hwf.
  - exists k. auto.
  - pose proof (on_nav_nav_wf sender k Hwf) as Hwf1.
    destruct (IH _ Hwf1) as (k' & Hrun & Hwf' & Hside).
    exists k'. cbn [for_each]. unfold mbind, M_bind.
    rewrite on_nav_returns in *. cbn [final_state] in *.
    split; [exact Hrun|]. split; [exact Hwf'|].
    rewrite Hside. destruct sender; reflexivity.
Qed.

(** Clicking the button of page [q] makes [q] the only visible page. *)
Lemma nav_button_selects (q : Page) (k : RobotKiosk) :
  nav_wf (stack k) ->
  exists k', _on_nav (Some (nav_button q)) k = Returns tt k'
    /\ QStackedWidget.currentWidget (stack k') = Some q
    /\ QStackedWidget.visible_pages (stack k') = [q].
Proof.
  intros Hwf.
  pose proof (on_nav_nav_wf (Some (nav_button q)) k Hwf) as [Hpages Hone].
  rewrite on_nav_returns in *. cbn [final_state] in *.
  eexists. split; [reflexivity|].
  destruct (one_current_visible _ Hone) as (p & Hcur & Hvis & Hp).
  cbn [stack with_stack] in *.
  rewrite setCurrentIndex_selects in Hp.
  - rewrite Hpages in Hp.
    assert (p = q) as -> by (destruct q; vm_compute in Hp; congruence).
    auto.
  - destruct Hwf as [Hpg _]. unfold QStackedWidget.count.
    rewrite <- (length_fmap fst), Hpg. destruct q; cbn; lia.
Qed.

(** C8: the initial page is Home; every sequence of navigation requests
    returns, and after it exactly one page is visible, the current one;
    from the state reached, each of the four pages can be selected by its
    button, unconditionally. *)
Theorem navigation_one_page_active (senders : list (option QPushButton.t)) :
  QStackedWidget.currentWidget (stack init_kiosk) = Some Home
  /\ QStackedWidget.visible_pages (stack init_kiosk) = [Home]
  /\ exists k' p,
       for_each senders _on_nav init_kiosk = Returns tt k'
       /\ QStackedWidget.currentWidget (stack k') = Some p
       /\ QStackedWidget.visible_pages (stack k') = [p]
       /\ length (QStackedWidget.visible_pages (stack k')) = 1%nat
       /\ forall q, exists k'',
            _on_nav (Some (nav_button q)) k' = Returns tt k''
            /\ QStackedWidget.currentWidget (stack k'') = Some q
            /\ QStackedWidget.visible_pages (stack k'') = [q].
Proof.
  split; [reflexivity|]. split; [reflexivity|].
  destruct (nav_sequence_returns senders init_kiosk init_kiosk_nav_wf)
    as (k' & Hrun & Hwf & _).
  destruct (one_current_visible _ (proj2 Hwf)) as (p & Hcur & Hvis & _).
  exists k', p. split; [exact Hrun|]. split; [exact Hcur|].
  split; [exact Hvis|]. split; [rewrite Hvis; reflexivity|].
  intros q. apply nav_button_selects, Hwf.
Qed.


(** ** Reachable states *)

Lemma ticks_after_batt_val (events : list ModalEvent) (k : RobotKiosk) :
  0 <= batt_val k <= 100 -> 0 <= batt_val (ticks_after events k) <= 100.
Proof.
  revert k. induction events as [|[v|d] events IH]; intros k Hb; cbn; auto.
  apply IH. rewrite simulate_battery_returns. cbn. apply next_percent_range.
Qed.

(** The invariant depends on the motor side, the stack and the battery
    value only. *)
Lemma kiosk_inv_transfer (k k' : RobotKiosk) :
  motor_side k' = motor_side k -> stack k' = stack k ->
  0 <= batt_val k' <= 100 -> kiosk_inv k -> kiosk_inv k'.
Proof.
  intros Hside Hstack Hb [Hwf Hfits Hkeys Hnav _]. split.
  - exact (motor_side_wf _ _ Hside Hwf).
  - exact (motor_side_fits _ _ Hside Hfits).
  - intros c. unfold stored. rewrite (motor_side_motors _ _ Hside). apply Hkeys.
  - rewrite Hstack. exact Hnav.
  - exact Hb.
Qed.

Lemma ticks_after_inv (events : list ModalEvent) (k : RobotKiosk) :
  kiosk_inv k -> kiosk_inv (ticks_after events k).
Proof.
  intros Hinv.
  destruct (ticks_after_motor_side events k) as [Hside Hstack].
  apply (kiosk_inv_transfer k); try assumption.
  apply ticks_after_batt_val, Hinv.
Qed.

(** A call of [_set_motor] that returned kept the invariant. *)
Lemma set_motor_post_inv (key : string) (val : Z) (k k' : RobotKiosk) :
  kiosk_inv k -> set_motor_post key val k k' -> kiosk_inv k'.
Proof.
  intros [Hwf Hfits Hkeys Hnav Hb] Hpost. split.
  - exact (post_wf _ _ _ _ Hpost).
  - exact (post_fits _ _ _ _ Hpost).
  - intros c Hc. apply Hkeys, (set_motor_post_keys _ c _ _ _ Hpost), Hc.
  - rewrite (post_stack _ _ _ _ Hpost). exact Hnav.
  - rewrite (post_batt_val _ _ _ _ Hpost). exact Hb.
Qed.

Lemma set_motor_inv (key : string) (val : Z) (k : RobotKiosk) :
  kiosk_inv k -> (key ∈ channels -> fits_c_int val = true) ->
  exists k', _set_motor key val k = Returns tt k' /\ kiosk_inv k'.
Proof.
  intros Hinv Hval.
  destruct (set_motor_spec key val k (inv_wf _ Hinv) (inv_fits _ Hinv) Hval)
    as (k' & Hrun & Hpost).
  exists k'. split; [exact Hrun|]. exact (set_motor_post_inv _ _ _ _ Hinv Hpost).
Qed.

(** In a state that satisfies the invariant the dialog opens on every
    name. *)
Lemma inv_initial_fits (c : string) (k : RobotKiosk) :
  kiosk_inv k -> fits_c_int (default 50 (motors k !! c)) = true.
Proof.
  intros Hinv. apply open_dial_initial_fits; [apply Hinv|].
  destruct (motors k !! c) as [x|] eqn:Hx; [left|right; reflexivity].
  apply (inv_keys _ Hinv). unfold stored. rewrite Hx. eauto.
Qed.

(** The value read back from the dialog is a position of the dial. *)
Lemma dial_after_value_range (events : list ModalEvent) (dlg : DialDialog.t) :
  dial_range dlg -> 0 <= DialDialog.get_value dlg <= 100 ->
  0 <= DialDialog.get_value (dial_after events dlg) <= 100.
Proof.
  revert dlg. induction events as [|[v|d] events IH]; intros dlg Hr Hv; cbn; auto.
  apply IH; [apply dial_turn_range, Hr|].
  rewrite dial_turn_value by exact Hr. unfold clamp. lia.
Qed.

Lemma dial_opened_value_range (title : string) (initial : Z) (events : list ModalEvent) :
  0 <= DialDialog.get_value (dial_after events (dial_opened title initial)) <= 100.
Proof.
  apply dial_after_value_range; [apply dial_new_range|].
  rewrite dial_opens_with_stored_value. unfold clamp. lia.
Qed.

(** A call whose argument fits returns from a state that satisfies the
    invariant, and the invariant holds again. *)
Lemma call_returns (c : Call) (k : RobotKiosk) :
  kiosk_inv k -> call_fits c ->
  exists k', call c k = Returns tt k' /\ kiosk_inv k'.
Proof.
  intros Hinv Hc.
  destruct c as [key val | name | sender | name events code | d]; cbn in *.
  - apply set_motor_inv; assumption.
  - destruct (apply_preset_returns name k (inv_wf _ Hinv) (inv_fits _ Hinv))
      as (k' & Hrun & Hwf' & Hfits' & Hstack & Hbatt & Hkeys).
    exists k'. split; [exact Hrun|]. destruct Hinv as [Hwf Hfits Hk Hnav Hb].
    split; try assumption; try congruence. intros c Hc'. apply Hk, Hkeys, Hc'.
  - pose proof (on_nav_nav_wf sender k (inv_nav _ Hinv)) as Hnav'.
    rewrite on_nav_returns in *. cbn [final_state] in Hnav'.
    eexists. split; [reflexivity|].
    destruct Hinv as [Hwf Hfits Hk Hnav Hb].
    destruct sender; split; try assumption.
    destruct Hwf. split; assumption.
  - rewrite open_dial_unfold by (apply inv_initial_fits, Hinv). cbv zeta.
    pose proof (ticks_after_inv events k Hinv) as Hinv'.
    destruct (decide (code = Accepted)).
    + apply set_motor_inv; [exact Hinv'|]. intros _.
      apply fits_c_int_percent, dial_opened_value_range.
    + eexists. split; [reflexivity | exact Hinv'].
  - rewrite simulate_battery_returns. cbv zeta.
    eexists. split; [reflexivity|].
    apply (kiosk_inv_transfer k); try reflexivity; [|exact Hinv].
    cbn. apply next_percent_range.
Qed.

(** The only call that can raise from such a state is a [_set_motor] whose
    value does not fit a C [int], and it raises [OverflowError]. *)
Lemma call_raised (c : Call) (e : Exn) (k k' : RobotKiosk) :
  kiosk_inv k -> call c k = Raises e k' ->
  e = OverflowError /\ ~ call_fits c.
Proof.
  intros Hinv Hrun.
  assert (Hnot : ~ call_fits c).
  { intros Hc. destruct (call_returns c k Hinv Hc) as (k2 & Hrun2 & _).
    congruence. }
  split; [|exact Hnot].
  destruct c as [key val | name | sender | name events code | d];
    try (exfalso; apply Hnot; exact I).
  exact (set_motor_raised key val e k k' (inv_wf _ Hinv) Hrun).
Qed.

(** A call that returned from such a state kept the invariant. *)
Lemma call_returned (c : Call) (k k' : RobotKiosk) :
  kiosk_inv k -> call c k = Returns tt k' -> kiosk_inv k'.
Proof.
  intros Hinv Hrun.
  destruct c as [key val | name | sender | name events code | d];
    [cbn in Hrun;
     exact (set_motor_post_inv _ _ _ _ Hinv
              (set_motor_returned key val k k' (inv_wf _ Hinv) Hrun)) | ..];
    match type of Hrun with
    | call ?c _ = _ =>
        destruct (call_returns c k Hinv I) as (k2 & Hrun2 & Hinv2);
        rewrite Hrun in Hrun2; injection Hrun2 as <-; exact Hinv2
    end.
Qed.

Lemma init_kiosk_inv : kiosk_inv init_kiosk.
Proof.
  split; [exact init_kiosk_wf | exact init_kiosk_fits | |
          exact init_kiosk_nav_wf | cbn; lia].
  intros c [x Hx]. unfold stored in Hx.
  change (motors init_kiosk)
    with (<["ARM" := 50]> (<["WRIST" := 50]> (<["TENTACLE" := 50]> (∅ : gmap string Z))))
    in Hx.
  repeat (apply lookup_insert_Some in Hx as [[<- _] | [_ Hx]]; [in_channels|]).
  rewrite lookup_empty in Hx. discriminate.
Qed.

(** Every reachable state satisfies the invariant. *)
Lemma reachable_inv (k : RobotKiosk) : reachable k -> kiosk_inv k.
Proof.
  induction 1 as [|c k k' _ IH Hrun]; [exact init_kiosk_inv|].
  exact (call_returned c k k' IH Hrun).
Qed.

(** ** [_set_motor] on any state *)

(** X1: [_set_motor] never adds or removes a key: for every state, key and
    value, returning or raising, the motor dictionary has the same keys
    after the call as before. *)
Theorem set_motor_keeps_keys (key : string) (val : Z) (k : RobotKiosk) :
  dom (motors (final_state (_set_motor key val k))) = dom (motors k).
Proof.
  rewrite set_motor_final_motors.
  unfold store_write, motors_contains, log_call. cbn [motors with_set_motor_calls].
  case_bool_decide as Hk; [|reflexivity].
  cbn. rewrite dom_insert_L.
  apply elem_of_dom in Hk.
  apply set_eq. intros c. rewrite elem_of_union, elem_of_singleton.
  split; [intros [-> | Hc]; assumption | auto].
Qed.

(** When a channel is missing from the dictionary the call raises
    [KeyError] at a gauge update, before any slider is touched. *)
Lemma set_motor_missing_outcome (key : string) (val : Z) (k : RobotKiosk) :
  (exists c, c ∈ channels
     /\ motors (store_write key val (log_call key val k)) !! c = None) ->
  exists c' k',
    _set_motor key val k = Raises (KeyError c') k'
    /\ c' ∈ channels
    /\ motors (store_write key val (log_call key val k)) !! c' = None.
Proof.
  intros (c & Hc & Hnone). revert Hnone.
  unfold _set_motor, sync_slider, int, QAbstractSlider.setValue, to_c_int.
  run_handler. cbn beta iota. fold (log_call key val k).
  unfold store_write.
  channel_cases Hc;
    destruct (motors_contains key _); cbn; intros Hnone;
    repeat match goal with
    | |- context [match ?m !! ?c with _ => _ end] =>
        destruct (m !! c) eqn:?; cbn
    end; try discriminate;
    do 2 eexists; (split; [reflexivity|]); (split; [in_channels | assumption]).
Qed.

(** X2: when one of the three channel keys is missing from the motor
    dictionary, [_set_motor] raises [KeyError] for a missing channel,
    whatever key and value it was called with; the store write has already
    been made by then, so a known key holds the new value in the state the
    exception leaves. *)
Theorem set_motor_missing_channel_raises (key c : string) (val : Z)
    (k : RobotKiosk) :
  c ∈ channels -> stored c k = None ->
  exists c' k',
    _set_motor key val k = Raises (KeyError c') k'
    /\ c' ∈ channels
    /\ stored c' k = None
    /\ (is_Some (stored key k) -> stored key k' = Some val).
Proof.
  intros Hc Hmiss. unfold stored in *.
  destruct (set_motor_missing_outcome key val k) as (c' & k' & Hrun & Hc' & Hnone).
  { exists c. split; [exact Hc|].
    rewrite store_write_lookup, Hmiss. case_decide; reflexivity. }
  exists c', k'. split; [exact Hrun|]. split; [exact Hc'|]. split.
  - destruct (motors k !! c') eqn:E; [|reflexivity].
    destruct (store_write_is_Some key val k c') as [y Hy]; [rewrite E; eauto|].
    congruence.
  - intros [x Hx].
    pose proof (set_motor_final_stored key key val k) as Hfin.
    rewrite Hrun in Hfin. cbn [final_state] in Hfin. unfold stored in Hfin.
    rewrite Hfin, Hx, decide_True by reflexivity. reflexivity.
Qed.

Lemma set_motor_missing_channel_raises_witness :
  exists c' k',
    _set_motor "ARM" 70 (with_motors (delete "WRIST") init_kiosk)
      = Raises (KeyError c') k'
    /\ c' ∈ channels
    /\ stored c' (with_motors (delete "WRIST") init_kiosk) = None
    /\ (is_Some (stored "ARM" (with_motors (delete "WRIST") init_kiosk)) ->
        stored "ARM" k' = Some 70).
Proof.
  apply (set_motor_missing_channel_raises "ARM" "WRIST" 70
           (with_motors (delete "WRIST") init_kiosk)).
  - in_channels.
  - vm_compute. reflexivity.
Defined.

(** ** How writes compose *)

Lemma set_motor_post_consistent (key : string) (val : Z) (k k' : RobotKiosk) :
  set_motor_post key val k k' -> views_consistent k'.
Proof. intros Hpost c x Hc Hx. exact (post_views _ _ _ _ Hpost c x Hc Hx). Qed.

Lemma init_kiosk_views_consistent : views_consistent init_kiosk.
Proof.
  intros c x Hc Hx. channel_cases Hc; vm_compute in Hx;
    injection Hx as <-; split; reflexivity.
Qed.

(** The values on display are a function of the motor dictionary once the
    views are consistent with it. *)
Lemma same_motors_same_display (kA kB : RobotKiosk) (ch : string) :
  kiosk_wf kA -> views_consistent kA -> views_consistent kB ->
  motors kA = motors kB -> displayed ch kA = displayed ch kB.
Proof.
  intros Hwf HA HB Hm.
  destruct (decide (ch ∈ channels)) as [Hc | Hc].
  - destruct (wf_channel_known kA ch Hwf Hc) as [x Hx].
    rewrite (displayed_pair ch kA x) by (apply HA; assumption).
    rewrite (displayed_pair ch kB x); [reflexivity|].
    apply HB; [assumption|]. unfold stored in *. congruence.
  - unfold displayed, gauge_of, slider_of.
    destruct (String.eqb_spec ch "ARM") as [-> | _];
      [exfalso; apply Hc; in_channels|].
    destruct (String.eqb_spec ch "WRIST") as [-> | _];
      [exfalso; apply Hc; in_channels|].
    destruct (String.eqb_spec ch "TENTACLE") as [-> | _];
      [exfalso; apply Hc; in_channels|].
    reflexivity.
Qed.

(** Two calls in a row. *)
Lemma set_motor_twice (c1 c2 : string) (v1 v2 : Z) (k : RobotKiosk) :
  kiosk_wf k -> store_fits k ->
  fits_c_int v1 = true -> fits_c_int v2 = true ->
  exists k1 k2,
    set_motor_post c1 v1 k k1
    /\ set_motor_post c2 v2 k1 k2
    /\ (_set_motor c1 v1 ;; _set_motor c2 v2) k = Returns tt k2.
Proof.
  intros Hwf Hfits F1 F2.
  destruct (set_motor_spec c1 v1 k Hwf Hfits (fun _ => F1)) as (k1 & Hrun1 & P1).
  destruct (set_motor_spec c2 v2 k1 (post_wf _ _ _ _ P1) (post_fits _ _ _ _ P1)
              (fun _ => F2)) as (k2 & Hrun2 & P2).
  exists k1, k2. split; [exact P1|]. split; [exact P2|].
  unfold mbind, M_bind. rewrite Hrun1. exact Hrun2.
Qed.

(** X3: writing to a channel the value it already stores changes nothing an
    operator can see: in a state whose stored values fit a C [int] and whose
    views are consistent with the store, the call returns with the same
    motor dictionary and the same value on every gauge and slider (only the
    record of the call is new). *)
Theorem set_motor_same_value_invisible (c : string) (v : Z) (k : RobotKiosk) :
  kiosk_wf k -> store_fits k -> views_consistent k -> stored c k = Some v ->
  exists k', _set_motor c v k = Returns tt k'
    /\ motors k' = motors k
    /\ forall ch, displayed ch k' = displayed ch k.
Proof.
  intros Hwf Hfits Hviews Hv.
  destruct (set_motor_spec c v k Hwf Hfits (fun Hc => Hfits c v Hc Hv))
    as (k' & Hrun & Hpost).
  assert (Hm : motors k' = motors k).
  { apply map_eq. intros c0.
    pose proof (post_stored _ _ _ _ Hpost c0) as H0. unfold stored in *.
    rewrite H0. case_decide as Heq; [|reflexivity].
    subst c0. rewrite Hv. reflexivity. }
  exists k'. split; [exact Hrun|]. split; [exact Hm|].
  intros ch. apply same_motors_same_display.
  - exact (post_wf _ _ _ _ Hpost).
  - exact (set_motor_post_consistent _ _ _ _ Hpost).
  - exact Hviews.
  - exact Hm.
Qed.

Lemma set_motor_same_value_invisible_witness :
  exists k', _set_motor "ARM" 50 init_kiosk = Returns tt k'
    /\ motors k' = motors init_kiosk
    /\ forall ch, displayed ch k' = displayed ch init_kiosk.
Proof.
  apply (set_motor_same_value_invisible "ARM" 50 init_kiosk).
  - exact init_kiosk_wf.
  - exact init_kiosk_fits.
  - exact init_kiosk_views_consistent.
  - vm_compute. reflexivity.
Defined.

(** X4: the last write wins: when the stored values and the two values
    written fit a C [int], two writes to the same key return and leave the
    motor dictionary and every view as the second write alone does. *)
Theorem set_motor_last_write_wins (c : string) (v1 v2 : Z) (k : RobotKiosk) :
  kiosk_wf k -> store_fits k ->
  fits_c_int v1 = true -> fits_c_int v2 = true ->
  exists kA kB,
    (_set_motor c v1 ;; _set_motor c v2) k = Returns tt kA
    /\ _set_motor c v2 k = Returns tt kB
    /\ motors kA = motors kB
    /\ forall ch, displayed ch kA = displayed ch kB.
Proof.
  intros Hwf Hfits F1 F2.
  destruct (set_motor_twice c c v1 v2 k Hwf Hfits F1 F2)
    as (k1 & kA & P1 & P2 & Hrun).
  destruct (set_motor_spec c v2 k Hwf Hfits (fun _ => F2)) as (kB & HrunB & PB).
  assert (Hm : motors kA = motors kB).
  { apply map_eq. intros c0.
    pose proof (post_stored _ _ _ _ P1 c0) as H1.
    pose proof (post_stored _ _ _ _ P2 c0) as H2.
    pose proof (post_stored _ _ _ _ PB c0) as H3.
    unfold stored in *. rewrite H2, H3, H1.
    case_decide; [|reflexivity].
    destruct (motors k !! c0); reflexivity. }
  exists kA, kB. split; [exact Hrun|]. split; [exact HrunB|].
  split; [exact Hm|].
  intros ch. apply same_motors_same_display.
  - exact (post_wf _ _ _ _ P2).
  - exact (set_motor_post_consistent _ _ _ _ P2).
  - exact (set_motor_post_consistent _ _ _ _ PB).
  - exact Hm.
Qed.

Lemma set_motor_last_write_wins_witness :
  exists kA kB,
    (_set_motor "ARM" 999 ;; _set_motor "ARM" 20) init_kiosk = Returns tt kA
    /\ _set_motor "ARM" 20 init_kiosk = Returns tt kB
    /\ motors kA = motors kB
    /\ forall ch, displayed ch kA = displayed ch kB.
Proof.
  apply (set_motor_last_write_wins "ARM" 999 20 init_kiosk).
  - exact init_kiosk_wf.
  - exact init_kiosk_fits.
  - reflexivity.
  - reflexivity.
Defined.

(** X5: writes to different keys commute when the stored values and the
    two values written fit a C [int]: in either order they return and leave
    the same motor dictionary and the same value on every gauge and
    slider. *)
Theorem set_motor_writes_commute (c1 c2 : string) (v1 v2 : Z) (k : RobotKiosk) :
  kiosk_wf k -> store_fits k ->
  fits_c_int v1 = true -> fits_c_int v2 = true -> c1 <> c2 ->
  exists kA kB,
    (_set_motor c1 v1 ;; _set_motor c2 v2) k = Returns tt kA
    /\ (_set_motor c2 v2 ;; _set_motor c1 v1) k = Returns tt kB
    /\ motors kA = motors kB
    /\ forall ch, displayed ch kA = displayed ch kB.
Proof.
  intros Hwf Hfits F1 F2 Hne.
  destruct (set_motor_twice c1 c2 v1 v2 k Hwf Hfits F1 F2)
    as (k1 & kA & P1 & P2 & HrunA).
  destruct (set_motor_twice c2 c1 v2 v1 k Hwf Hfits F2 F1)
    as (k2 & kB & Q1 & Q2 & HrunB).
  assert (Hm : motors kA = motors kB).
  { apply map_eq. intros c0.
    pose proof (post_stored _ _ _ _ P1 c0) as H1.
    pose proof (post_stored _ _ _ _ P2 c0) as H2.
    pose proof (post_stored _ _ _ _ Q1 c0) as H3.
    pose proof (post_stored _ _ _ _ Q2 c0) as H4.
    unfold stored in *. rewrite H2, H4, H1, H3.
    repeat case_decide; congruence. }
  exists kA, kB. split; [exact HrunA|]. split; [exact HrunB|].
  split; [exact Hm|].
  intros ch. apply same_motors_same_display.
  - exact (post_wf _ _ _ _ P2).
  - exact (set_motor_post_consistent _ _ _ _ P2).
  - exact (set_motor_post_consistent _ _ _ _ Q2).
  - exact Hm.
Qed.

Lemma set_motor_writes_commute_witness :
  exists kA kB,
    (_set_motor "ARM" 10 ;; _set_motor "WRIST" 90) init_kiosk = Returns tt kA
    /\ (_set_motor "WRIST" 90 ;; _set_motor "ARM" 10) init_kiosk = Returns tt kB
    /\ motors kA = motors kB
    /\ forall ch, displayed ch kA = displayed ch kB.
Proof.
  apply (set_motor_writes_commute "ARM" "WRIST" 10 90 init_kiosk).
  - exact init_kiosk_wf.
  - exact init_kiosk_fits.
  - reflexivity.
  - reflexivity.
  - discriminate.
Defined.

(** ** Presets, seen from the views *)

Lemma three_writes_views (a w t : Z) (k : RobotKiosk) :
  kiosk_wf k -> store_fits k ->
  fits_c_int a = true -> fits_c_int w = true -> fits_c_int t = true ->
  exists k',
    for_each [("ARM", a); ("WRIST", w); ("TENTACLE", t)]
      (fun kv => _set_motor (fst kv) (snd kv)) k = Returns tt k'
    /\ views_consistent k'
    /\ set_motor_calls k' =
       (set_motor_calls k ++ [("ARM", a); ("WRIST", w); ("TENTACLE", t)])%list.
Proof.
  intros Hwf Hfits Fa Fw Ft.
  destruct (set_motor_spec "ARM" a k Hwf Hfits (fun _ => Fa)) as (k1 & Hrun1 & P1).
  destruct (set_motor_spec "WRIST" w k1 (post_wf _ _ _ _ P1) (post_fits _ _ _ _ P1)
              (fun _ => Fw)) as (k2 & Hrun2 & P2).
  destruct (set_motor_spec "TENTACLE" t k2 (post_wf _ _ _ _ P2)
              (post_fits _ _ _ _ P2) (fun _ => Ft))
    as (k3 & Hrun3 & P3).
  exists k3. split.
  { cbn [for_each fst snd]. unfold mbind, M_bind.
    rewrite Hrun1, Hrun2, Hrun3. reflexivity. }
  split; [exact (set_motor_post_consistent _ _ _ _ P3)|].
  rewrite (post_calls _ _ _ _ P3), (post_calls _ _ _ _ P2),
    (post_calls _ _ _ _ P1).
  rewrite <- !app_assoc. reflexivity.
Qed.

Lemma three_writes_shown (a w t : Z) (k : RobotKiosk) :
  kiosk_wf k -> store_fits k ->
  0 <= a <= 100 -> 0 <= w <= 100 -> 0 <= t <= 100 ->
  exists k',
    for_each [("ARM", a); ("WRIST", w); ("TENTACLE", t)]
      (fun kv => _set_motor (fst kv) (snd kv)) k = Returns tt k'
    /\ (forall c v, (c, v) ∈ [("ARM", a); ("WRIST", w); ("TENTACLE", t)] ->
        stored c k' = Some v /\ displayed c k' = [v; v])
    /\ set_motor_calls k' =
       (set_motor_calls k ++ [("ARM", a); ("WRIST", w); ("TENTACLE", t)])%list.
Proof.
  intros Hwf Hfits Ha Hw Ht.
  destruct (three_writes_views a w t k Hwf Hfits)
    as (k' & Hrun & Hviews & Hlog); try (apply fits_c_int_percent; assumption).
  destruct (for_each_three_channels a w t k Hwf Hfits)
    as (k2 & Hrun2 & Hsa & Hsw & Hst & _);
    try (apply fits_c_int_percent; assumption).
  rewrite Hrun in Hrun2. injection Hrun2 as <-.
  exists k'. split; [exact Hrun|]. split; [|exact Hlog].
  intros c v Hin.
  apply list_elem_of_In in Hin. simpl in Hin.
  destruct Hin as [Hin | [Hin | [Hin | []]]]; injection Hin as <- <-.
  - split; [exact Hsa|].
    rewrite (displayed_pair "ARM" k' a), clamp_id by
      (assumption || (apply Hviews; [in_channels | exact Hsa])).
    reflexivity.
  - split; [exact Hsw|].
    rewrite (displayed_pair "WRIST" k' w), clamp_id by
      (assumption || (apply Hviews; [in_channels | exact Hsw])).
    reflexivity.
  - split; [exact Hst|].
    rewrite (displayed_pair "TENTACLE" k' t), clamp_id by
      (assumption || (apply Hviews; [in_channels | exact Hst])).
    reflexivity.
Qed.

(** X6: when the stored values fit a C [int], [_apply_preset(name)]
    returns, every channel stores the value the preset gives it and its
    gauge and slider show that value unclamped, whatever the channels held
    before; [_set_motor] has been called exactly three times, for ARM, WRIST
    and TENTACLE in this order. *)
Theorem apply_preset_shows_values (name : string) (k : RobotKiosk) :
  kiosk_wf k -> store_fits k ->
  exists k', _apply_preset name k = Returns tt k'
    /\ (forall c v, (c, v) ∈ preset_vals name ->
        stored c k' = Some v /\ displayed c k' = [v; v])
    /\ set_motor_calls k' = (set_motor_calls k ++ preset_vals name)%list
    /\ fst <$> preset_vals name = channels.
Proof.
  intros Hwf Hfits. unfold _apply_preset, preset_vals.
  destruct (String.eqb name "Stand"); [|destruct (String.eqb name "Wave")];
    match goal with
    | |- context [for_each [("ARM", ?a); ("WRIST", ?w); ("TENTACLE", ?t)]] =>
        destruct (three_writes_shown a w t k Hwf Hfits)
          as (k' & Hrun & Hshown & Hlog);
          [lia | lia | lia |]
    end; exists k'; repeat split; try assumption; apply Hshown; assumption.
Qed.

Lemma apply_preset_shows_values_witness :
  exists k', _apply_preset "Wave" init_kiosk = Returns tt k'
    /\ (forall c v, (c, v) ∈ preset_vals "Wave" ->
        stored c k' = Some v /\ displayed c k' = [v; v])
    /\ set_motor_calls k' = (set_motor_calls init_kiosk ++ preset_vals "Wave")%list
    /\ fst <$> preset_vals "Wave" = channels.
Proof.
  apply (apply_preset_shows_values "Wave" init_kiosk).
  - exact init_kiosk_wf.
  - exact init_kiosk_fits.
Defined.


(** ** More on the dial dialog *)

(** X7: accepting the dialog without having turned the dial writes the
    clamped stored value back: when the stored values fit a C [int], the
    call returns, the store keeps its value when it lies in 0..100, and an
    out-of-range value (which only a direct call of [_set_motor] can have
    put there) is replaced by its clamp. *)
Theorem dial_accept_untouched_clamps (c : string) (x : Z)
    (events : list ModalEvent) (k : RobotKiosk) :
  kiosk_wf k -> store_fits k -> c ∈ channels -> stored c k = Some x ->
  Forall is_timeout events ->
  exists k', _open_dial c events Accepted k = Returns tt k'
    /\ stored c k' = Some (clamp 0 100 x)
    /\ displayed c k' = [clamp 0 100 x; clamp 0 100 x]
    /\ (stored c k' = stored c k <-> 0 <= x <= 100).
Proof.
  intros Hwf Hfits Hc Hx Hev.
  destruct (ticks_after_motor_side events k) as [Hside _].
  pose proof (motor_side_wf _ _ Hside Hwf) as Hwf2.
  pose proof (motor_side_fits _ _ Hside Hfits) as Hfits2.
  rewrite open_dial_unfold by (apply open_dial_initial_fits; auto).
  cbv zeta. rewrite decide_True by reflexivity.
  rewrite dial_after_timeouts by exact Hev.
  unfold stored in Hx. rewrite Hx. cbn [default from_option].
  rewrite dial_opens_with_stored_value.
  destruct (set_motor_spec c (clamp 0 100 x) _ Hwf2 Hfits2
              (fun _ => fits_c_int_clamp x)) as (k' & Hrun & Hsm).
  pose proof (set_motor_post_same c _ _ k' Hwf2 Hc Hsm) as Hst.
  exists k'. split; [exact Hrun|]. split; [exact Hst|]. split.
  - rewrite (displayed_pair c k' (clamp 0 100 x))
      by (apply (post_views _ _ _ _ Hsm); assumption).
    unfold clamp. f_equal; [lia | f_equal; lia].
  - rewrite Hst. unfold stored. rewrite Hx. split.
    + intros Heq. apply clamp_fixed_iff. congruence.
    + intros Hr. rewrite clamp_id by exact Hr. reflexivity.
Qed.

Lemma dial_accept_untouched_clamps_witness :
  exists k',
    _open_dial "ARM" [BatteryTimeout (Build_BatteryDraws 2 0.5 9)] Accepted
      (with_motors (fun m => <["ARM" := 999]> m) init_kiosk) = Returns tt k'
    /\ stored "ARM" k' = Some (clamp 0 100 999)
    /\ displayed "ARM" k' = [clamp 0 100 999; clamp 0 100 999]
    /\ (stored "ARM" k'
        = stored "ARM" (with_motors (fun m => <["ARM" := 999]> m) init_kiosk)
        <-> 0 <= 999 <= 100).
Proof.
  apply (dial_accept_untouched_clamps "ARM" 999
           [BatteryTimeout (Build_BatteryDraws 2 0.5 9)]
           (with_motors (fun m => <["ARM" := 999]> m) init_kiosk)).
  - split; try (vm_compute; eauto); split; reflexivity.
  - intros c x Hc Hx. channel_cases Hc; vm_compute in Hx;
      injection Hx as <-; reflexivity.
  - in_channels.
  - vm_compute. reflexivity.
  - repeat constructor.
Defined.



Lemma length_append (s1 s2 : string) :
  String.length (s1 +:+ s2) = (String.length s1 + String.length s2)%nat.
Proof.
  induction s1 as [|a s1 IH]; simpl; [reflexivity | f_equal; exact IH].
Qed.

Lemma append_right_cancel (s1 s2 t : string) :
  String.length t = 1%nat -> s1 +:+ t = s2 +:+ t -> s1 = s2.
Proof.
  intros Hlen. revert s2.
  induction s1 as [|a s1 IH]; intros [|b s2] H.
  - reflexivity.
  - exfalso. apply (f_equal String.length) in H.
    rewrite !length_append in H. simpl in H. lia.
  - exfalso. apply (f_equal String.length) in H.
    rewrite !length_append in H. simpl in H. lia.
  - simpl in H. injection H as -> H. f_equal. apply IH, H.
Qed.

Lemma dial_turn_readout (v : Z) (dlg : DialDialog.t) :
  QAbstractSlider.signalsBlocked (DialDialog.dial dlg) = false ->
  readout_agrees dlg ->
  readout_agrees (DialDialog.turn v dlg)
  /\ QAbstractSlider.signalsBlocked (DialDialog.dial (DialDialog.turn v dlg))
     = false.
Proof.
  unfold readout_agrees, DialDialog.turn, DialDialog.get_value,
    QAbstractSlider.emitted.
  intros Hb Hagree. rewrite Hb.
  destruct (Z.eqb_spec (QAbstractSlider.bound (DialDialog.dial dlg) v)
              (QAbstractSlider.value (DialDialog.dial dlg))) as [Heq | Hne]; cbn.
  - rewrite Heq. split; [exact Hagree | exact Hb].
  - split; [reflexivity | exact Hb].
Qed.

(** X9: when the dialog opens on a value in 0..100, it does open, and its
    readout label shows the value of the dial at every moment of the
    session, whatever the operator does with the dial. *)
Theorem dial_readout_tracks_dial (title : string) (initial : Z)
    (events : list ModalEvent) :
  0 <= initial <= 100 ->
  exists dlg, DialDialog.new title initial = Ok dlg
    /\ readout_agrees (dial_after events dlg).
Proof.
  intros Hr. exists (dial_opened title initial).
  split; [apply dial_new_fits, fits_c_int_percent, Hr|].
  assert (H0 : readout_agrees (dial_opened title initial)
               /\ QAbstractSlider.signalsBlocked
                    (DialDialog.dial (dial_opened title initial)) = false).
  { split; [|reflexivity].
    unfold readout_agrees. rewrite dial_opens_with_stored_value.
    rewrite clamp_id by exact Hr. reflexivity. }
  revert H0. generalize (dial_opened title initial).
  induction events as [|[v|d] events IH]; intros dlg [Hagree Hb]; cbn.
  - exact Hagree.
  - apply IH, dial_turn_readout; assumption.
  - apply IH. split; assumption.
Qed.

Lemma dial_readout_tracks_dial_witness :
  exists dlg, DialDialog.new "ARM Control" 50 = Ok dlg
    /\ readout_agrees
         (dial_after [DialTurned 120; DialTurned 100; DialTurned (-3)] dlg).
Proof.
  apply (dial_readout_tracks_dial "ARM Control" 50
           [DialTurned 120; DialTurned 100; DialTurned (-3)]).
  lia.
Defined.

(** X10: when the dialog opens on a value outside 0..100 that fits a
    C [int], the readout shows that raw value while the dial sits at its
    clamp: label and dial disagree until the operator moves the dial.  On a
    value that does not fit a C [int] the constructor raises
    [OverflowError]: there is no dialog. *)
Theorem dial_readout_wrong_at_open (title : string) (initial : Z) :
  ~ 0 <= initial <= 100 ->
  (fits_c_int initial = true ->
   exists dlg, DialDialog.new title initial = Ok dlg
     /\ ~ readout_agrees dlg
     /\ DialDialog.value_label dlg = pretty initial +:+ "%"
     /\ DialDialog.get_value dlg = clamp 0 100 initial)
  /\ (fits_c_int initial = false ->
      DialDialog.new title initial = Err OverflowError).
Proof.
  intros Hout. split; [|apply dial_new_overflow].
  intros Hfits. exists (dial_opened title initial).
  split; [apply dial_new_fits, Hfits|].
  split; [|split; reflexivity].
  unfold readout_agrees. rewrite dial_opens_with_stored_value.
  change (DialDialog.value_label (dial_opened title initial))
    with (pretty initial +:+ "%").
  intros Heq. apply append_right_cancel in Heq; [|reflexivity].
  apply (inj pretty) in Heq.
  apply Hout, clamp_fixed_iff. congruence.
Qed.

Lemma dial_readout_wrong_at_open_witness :
  (exists dlg, DialDialog.new "ARM Control" 999 = Ok dlg
     /\ ~ readout_agrees dlg
     /\ DialDialog.value_label dlg = pretty 999 +:+ "%"
     /\ DialDialog.get_value dlg = clamp 0 100 999)
  /\ DialDialog.new "ARM Control" 2147483648 = Err OverflowError.
Proof.
  destruct (dial_readout_wrong_at_open "ARM Control" 999) as [Hopen _];
    [lia|].
  destruct (dial_readout_wrong_at_open "ARM Control" 2147483648) as [_ Hraise];
    [lia|].
  split; [apply Hopen; reflexivity | apply Hraise; reflexivity].
Defined.

(** ** Invariants of the reachable states *)

Lemma motor_side_views_consistent (k k' : RobotKiosk) :
  motor_side k' = motor_side k -> views_consistent k -> views_consistent k'.
Proof.
  unfold motor_side. intros H Hv c x Hc Hx.
  injection H as Hm Hca Hcw Hct Hsa Hsw Hst _.
  unfold stored in Hx. rewrite Hm in Hx. specialize (Hv c x Hc Hx).
  unfold views_show, gauge_of, slider_of in *.
  rewrite Hca, Hcw, Hct, Hsa, Hsw, Hst. exact Hv.
Qed.

Lemma on_nav_motor_side (sender : option QPushButton.t) (k : RobotKiosk) :
  motor_side (final_state (_on_nav sender k)) = motor_side k.
Proof. rewrite on_nav_returns. destruct sender; reflexivity. Qed.

Lemma apply_preset_views_consistent (name : string) (k k' : RobotKiosk) :
  kiosk_wf k -> store_fits k ->
  _apply_preset name k = Returns tt k' -> views_consistent k'.
Proof.
  intros Hwf Hfits. unfold _apply_preset.
  destruct (preset_vals_cases name) as (a & w & t & -> & Ha & Hw & Ht).
  destruct (three_writes_views a w t k Hwf Hfits) as (k2 & Hrun & Hviews & _);
    try (apply fits_c_int_percent; assumption).
  rewrite Hrun. intros H. injection H as <-. exact Hviews.
Qed.

Lemma open_dial_views_consistent (c : string) (events : list ModalEvent)
    (code : DialogCode) (k k' : RobotKiosk) :
  kiosk_inv k -> views_consistent k ->
  _open_dial c events code k = Returns tt k' -> views_consistent k'.
Proof.
  intros Hinv Hviews.
  rewrite open_dial_unfold by (apply inv_initial_fits, Hinv). cbv zeta.
  destruct (ticks_after_motor_side events k) as [Hside _].
  destruct (decide (code = Accepted)).
  - intros Hrun.
    exact (set_motor_post_consistent _ _ _ _
             (set_motor_returned _ _ _ _
                (motor_side_wf _ _ Hside (inv_wf _ Hinv)) Hrun)).
  - intros H. injection H as <-.
    exact (motor_side_views_consistent _ _ Hside Hviews).
Qed.

Lemma call_views_consistent (c : Call) (k k' : RobotKiosk) :
  kiosk_inv k -> views_consistent k ->
  call c k = Returns tt k' -> views_consistent k'.
Proof.
  intros Hinv Hviews.
  destruct c as [key val | name | sender | name events code | d]; cbn.
  - intros Hrun.
    exact (set_motor_post_consistent _ _ _ _
             (set_motor_returned _ _ _ _ (inv_wf _ Hinv) Hrun)).
  - apply apply_preset_views_consistent; apply Hinv.
  - intros H. pose proof (on_nav_motor_side sender k) as Hside.
    rewrite H in Hside. cbn in Hside.
    exact (motor_side_views_consistent _ _ Hside Hviews).
  - apply open_dial_views_consistent; assumption.
  - intros H. destruct (simulate_battery_motor_side d k) as [Hside _].
    rewrite H in Hside. cbn in Hside.
    exact (motor_side_views_consistent _ _ Hside Hviews).
Qed.

Lemma reachable_consistent (k : RobotKiosk) :
  reachable k -> views_consistent k.
Proof.
  induction 1 as [|c k k' Hreach IH Hrun];
    [exact init_kiosk_views_consistent|].
  exact (call_views_consistent c k k' (reachable_inv k Hreach) IH Hrun).
Qed.

(** A sequence of calls that all returned ends in a reachable state. *)
Lemma reachable_after_calls (cs : list Call) (k : RobotKiosk) :
  reachable k -> calls_returned cs k = true -> reachable (after_calls cs k).
Proof.
  revert k. induction cs as [|c cs IH]; intros k Hreach Hret; cbn in *.
  - exact Hreach.
  - apply andb_true_iff in Hret as [Hc Hcs].
    apply IH; [|exact Hcs].
    apply (reachable_call c k); [exact Hreach|].
    destruct (call c k) as [[] k'|e k']; [reflexivity | discriminate].
Qed.

(** X11: in a state the kiosk has reached by calls of its handlers that
    returned, a call whose integer argument fits a C [int] returns, with any
    other arguments and any operator input, and the state it returns in is
    reachable again.  A call that raises there raises [OverflowError], never
    [KeyError], and only for an argument that does not fit. *)
Theorem reachable_call_returns (c : Call) (k : RobotKiosk) :
  reachable k ->
  (call_fits c -> exists k', call c k = Returns tt k' /\ reachable k')
  /\ (forall e k', call c k = Raises e k' ->
      e = OverflowError /\ ~ call_fits c).
Proof.
  intros Hreach. pose proof (reachable_inv k Hreach) as Hinv. split.
  - intros Hc. destruct (call_returns c k Hinv Hc) as (k' & Hrun & _).
    exists k'. split; [exact Hrun|].
    exact (reachable_call c k k' Hreach Hrun).
  - intros e k' Hrun. exact (call_raised c e k k' Hinv Hrun).
Qed.

Lemma reachable_call_returns_witness :
  exists k',
    call (CallOpenDial "ARM" [DialTurned 30] Accepted)
      (after_calls [CallSetMotor "WRIST" 999; CallApplyPreset "Wave"] init_kiosk)
      = Returns tt k'
    /\ reachable k'.
Proof.
  destruct (reachable_call_returns
              (CallOpenDial "ARM" [DialTurned 30] Accepted)
              (after_calls [CallSetMotor "WRIST" 999; CallApplyPreset "Wave"]
                 init_kiosk)) as [Hret _].
  - apply reachable_after_calls; [exact reachable_init|].
    vm_compute. reflexivity.
  - apply Hret. exact I.
Defined.

(** X12: in every state the kiosk can reach by calls of its handlers that
    returned, with any arguments, the gauge and the slider of every channel
    show the clamped stored value of that channel: a view never lags behind
    the store. *)
Theorem reachable_views_show_store (c : string) (k : RobotKiosk) :
  reachable k -> c ∈ channels ->
  exists x, stored c k = Some x
    /\ displayed c k = [clamp 0 100 x; clamp 0 100 x].
Proof.
  intros Hreach Hc.
  destruct (wf_channel_known k c (inv_wf _ (reachable_inv k Hreach)) Hc)
    as [x Hx].
  exists x. split; [exact Hx|].
  apply displayed_pair, (reachable_consistent k Hreach); assumption.
Qed.

Lemma reachable_views_show_store_witness :
  exists x,
    stored "WRIST"
      (after_calls [CallApplyPreset "Stand"; CallSetMotor "WRIST" 999] init_kiosk)
      = Some x
    /\ displayed "WRIST"
         (after_calls [CallApplyPreset "Stand"; CallSetMotor "WRIST" 999]
            init_kiosk)
       = [clamp 0 100 x; clamp 0 100 x].
Proof.
  apply (reachable_views_show_store "WRIST"
           (after_calls [CallApplyPreset "Stand"; CallSetMotor "WRIST" 999]
              init_kiosk)).
  - apply reachable_after_calls; [exact reachable_init|].
    vm_compute. reflexivity.
  - in_channels.
Defined.

(** X13: in every reachable state exactly one page is visible, the current
    one, and the battery percent lies in 0..100, whatever handlers ran and
    in whatever order. *)
Theorem reachable_one_page_and_battery (k : RobotKiosk) :
  reachable k ->
  (exists p, QStackedWidget.visible_pages (stack k) = [p]
     /\ QStackedWidget.currentWidget (stack k) = Some p)
  /\ 0 <= batt_val k <= 100.
Proof.
  intros Hreach. destruct (reachable_inv k Hreach) as [_ _ _ [_ Hone] Hb].
  split; [|exact Hb].
  destruct (one_current_visible _ Hone) as (p & Hcur & Hvis & _).
  exists p. auto.
Qed.

Lemma reachable_one_page_and_battery_witness :
  (exists p,
     QStackedWidget.visible_pages
       (stack (after_calls
                 [CallOnNav (Some (nav_button Motor));
                  CallSetMotor "ARM" 70;
                  CallSimulateBattery (Build_BatteryDraws 2 0.1 25);
                  CallOpenDial "WRIST" [DialTurned 12] Accepted;
                  CallOnNav (Some (nav_button Settings))] init_kiosk)) = [p]
     /\ QStackedWidget.currentWidget
          (stack (after_calls
                    [CallOnNav (Some (nav_button Motor));
                     CallSetMotor "ARM" 70;
                     CallSimulateBattery (Build_BatteryDraws 2 0.1 25);
                     CallOpenDial "WRIST" [DialTurned 12] Accepted;
                     CallOnNav (Some (nav_button Settings))] init_kiosk))
        = Some p)
  /\ 0 <= batt_val
            (after_calls
               [CallOnNav (Some (nav_button Motor));
                CallSetMotor "ARM" 70;
                CallSimulateBattery (Build_BatteryDraws 2 0.1 25);
                CallOpenDial "WRIST" [DialTurned 12] Accepted;
                CallOnNav (Some (nav_button Settings))] init_kiosk) <= 100.
Proof.
  apply (reachable_one_page_and_battery
           (after_calls
              [CallOnNav (Some (nav_button Motor));
               CallSetMotor "ARM" 70;
               CallSimulateBattery (Build_BatteryDraws 2 0.1 25);
               CallOpenDial "WRIST" [DialTurned 12] Accepted;
               CallOnNav (Some (nav_button Settings))] init_kiosk)).
  apply reachable_after_calls; [exact reachable_init|].
  vm_compute. reflexivity.
Defined.

(** ** What the operator can reach *)

Lemma init_kiosk_gui_inv : gui_inv init_kiosk.
Proof.
  split.
  - exact init_kiosk_wf.
  - repeat split.
  - intros c x. unfold stored, init_kiosk. cbn [motors].
    rewrite !lookup_insert_Some, lookup_empty. intros Hx.
    destruct Hx as [[_ <-] | [_ [[_ <-] | [_ [[_ <-] | [_ Hx]]]]]];
      [lia | lia | lia | discriminate].
  - exact init_kiosk_views_consistent.
Qed.

Lemma motor_side_gui_inv (k k' : RobotKiosk) :
  motor_side k' = motor_side k -> gui_inv k -> gui_inv k'.
Proof.
  intros Hside [Hwf Hub Hr Hv]. split.
  - exact (motor_side_wf _ _ Hside Hwf).
  - unfold motor_side in Hside. injection Hside as _ _ _ _ Hsa Hsw Hst _.
    unfold sliders_unblocked. rewrite Hsa, Hsw, Hst. exact Hub.
  - unfold motor_side in Hside. injection Hside as Hm _ _ _ _ _ _ _.
    unfold stored. rewrite Hm. exact Hr.
  - exact (motor_side_views_consistent _ _ Hside Hv).
Qed.

(** A write of a value in 0..100 establishes the invariant from a state
    whose store is in range, even when a view is out of step before it. *)
Lemma set_motor_gui_inv (key : string) (v : Z) (k : RobotKiosk) :
  kiosk_wf k -> (forall c x, stored c k = Some x -> 0 <= x <= 100) ->
  0 <= v <= 100 ->
  exists k', _set_motor key v k = Returns tt k' /\ gui_inv k'.
Proof.
  intros Hwf Hr Hv.
  assert (Hfits : store_fits k).
  { intros c x _ Hx. exact (fits_c_int_percent x (Hr c x Hx)). }
  destruct (set_motor_spec key v k Hwf Hfits (fun _ => fits_c_int_percent v Hv))
    as (k' & Hrun & Hpost).
  exists k'. split; [exact Hrun|]. split.
  - exact (post_wf _ _ _ _ Hpost).
  - exact (post_unblocked _ _ _ _ Hpost).
  - intros c x. rewrite (post_stored _ _ _ _ Hpost c).
    case_decide as Hd; [|apply Hr].
    destruct (stored c k); cbn; [|discriminate].
    intros Hs. injection Hs as <-. exact Hv.
  - exact (set_motor_post_consistent _ _ _ _ Hpost).
Qed.

Lemma writes_gui_inv (l : list (string * Z)) (k : RobotKiosk) :
  gui_inv k -> Forall (fun kv => 0 <= snd kv <= 100) l ->
  exists k',
    for_each l (fun kv => _set_motor (fst kv) (snd kv)) k = Returns tt k'
    /\ gui_inv k'.
Proof.
  intros Hinv Hall. revert k Hinv.
  induction Hall as [|[c v] l Hv _ IH]; intros k Hinv.
  - exists k. split; [reflexivity | exact Hinv].
  - destruct (set_motor_gui_inv c v k (gui_wf _ Hinv) (gui_range _ Hinv) Hv)
      as (k1 & Hrun1 & Hinv1).
    destruct (IH k1 Hinv1) as (k' & Hrun & Hinv').
    exists k'. split; [|exact Hinv'].
    cbn [for_each fst snd]. unfold mbind, M_bind. rewrite Hrun1. exact Hrun.
Qed.

Lemma slider_moved_gui_inv (ch : Channel) (pos : Z) (k : RobotKiosk) :
  gui_inv k ->
  exists k', slider_moved ch pos k = Returns tt k' /\ gui_inv k'.
Proof.
  intros Hinv. pose proof Hinv as [Hwf Hub Hr Hviews].
  set (c := channel_key ch).
  assert (Hc : c ∈ channels) by (destruct ch; in_channels).
  destruct (wf_channel_known k c Hwf Hc) as [x Hx].
  pose proof (Hviews c x Hc Hx) as [_ Hsl].
  assert (Hsl_of : exists sl, slider_of c k = Some sl
            /\ slider_range sl /\ QAbstractSlider.signalsBlocked sl = false).
  { destruct Hwf, Hub as (? & ? & ?). destruct ch; cbn; eauto. }
  destruct Hsl_of as (sl & Hof & [Hlo Hhi] & Hunb).
  rewrite Hof in Hsl. cbn in Hsl. injection Hsl as Hval.
  unfold slider_moved. fold c. unfold mbind, M_bind, get, modify.
  rewrite Hof. unfold QAbstractSlider.emitted. rewrite Hunb.
  set (k1 := with_slider_of c (QAbstractSlider.set_value pos) k).
  assert (Hside : motors k1 = motors k) by (destruct ch; reflexivity).
  assert (Hwf1 : kiosk_wf k1).
  { destruct Hwf. destruct ch; split; assumption. }
  destruct (Z.eqb_spec (QAbstractSlider.bound sl pos) (QAbstractSlider.value sl))
    as [Hsame | Hdiff].
  - (* the slider did not move: no signal *)
    exists k1. split; [reflexivity|]. split.
    + exact Hwf1.
    + destruct Hub as (? & ? & ?). destruct ch; repeat split; assumption.
    + intros c0 x0. unfold stored. rewrite Hside. apply Hr.
    + intros c0 x0 Hc0 Hx0. unfold stored in Hx0. rewrite Hside in Hx0.
      pose proof (Hviews c0 x0 Hc0 Hx0) as [Hg Hs].
      split; [destruct ch; exact Hg|].
      destruct ch; cbn in Hof; injection Hof as <-;
        channel_cases Hc0; cbn in *; try exact Hs;
        rewrite Hsame; exact Hs.
  - (* valueChanged runs [_set_motor] *)
    apply set_motor_gui_inv.
    + exact Hwf1.
    + intros c0 x0. unfold stored. rewrite Hside. apply Hr.
    + unfold QAbstractSlider.bound. rewrite Hlo, Hhi. lia.
Qed.

(** Every event is handled without an exception and keeps the invariant. *)
Lemma deliver_gui_inv (e : GuiEvent) (k : RobotKiosk) :
  gui_inv k -> exists k', deliver e k = Returns tt k' /\ gui_inv k'.
Proof.
  intros Hinv.
  destruct e as [ch pos | ch events code | p | p | d]; cbn [deliver].
  - apply slider_moved_gui_inv, Hinv.
  - rewrite open_dial_unfold.
    2:{ apply fits_c_int_percent.
        destruct (motors k !! channel_key ch) as [x|] eqn:Hx; cbn; [|lia].
        exact (gui_range _ Hinv _ _ Hx). }
    cbv zeta.
    destruct (ticks_after_motor_side events k) as [Hside _].
    pose proof (motor_side_gui_inv _ _ Hside Hinv) as Hinv2.
    destruct (decide (code = Accepted)).
    + apply set_motor_gui_inv;
        [exact (gui_wf _ Hinv2) | exact (gui_range _ Hinv2) |].
      apply dial_opened_value_range.
    + eexists. split; [reflexivity | exact Hinv2].
  - unfold _apply_preset. apply writes_gui_inv; [exact Hinv|].
    destruct p; cbn; repeat constructor; cbn; lia.
  - rewrite on_nav_returns. eexists. split; [reflexivity|].
    apply (motor_side_gui_inv k); [reflexivity | exact Hinv].
  - rewrite simulate_battery_returns. eexists. split; [reflexivity|].
    apply (motor_side_gui_inv k); [reflexivity | exact Hinv].
Qed.

Lemma gui_reachable_inv (k : RobotKiosk) : gui_reachable k -> gui_inv k.
Proof.
  induction 1 as [|e k k' _ IH Hrun]; [exact init_kiosk_gui_inv|].
  destruct (deliver_gui_inv e k IH) as (k2 & Hrun2 & Hinv).
  rewrite Hrun in Hrun2. injection Hrun2 as <-. exact Hinv.
Qed.

(** X14: whatever the operator does with the sliders, the diagram buttons
    and their dial dialog, the preset buttons and the navigation bar, and
    however the battery timer fires in between, every channel stores a
    value in 0..100 and its gauge and slider show exactly that value: the
    unclamped store of [_set_motor] never shows through the widgets. *)
Theorem gui_store_in_range_and_shown (ch : Channel) (k : RobotKiosk) :
  gui_reachable k ->
  exists x, stored (channel_key ch) k = Some x
    /\ 0 <= x <= 100
    /\ displayed (channel_key ch) k = [x; x].
Proof.
  intros Hreach. destruct (gui_reachable_inv k Hreach) as [Hwf _ Hr Hviews].
  assert (Hc : channel_key ch ∈ channels) by (destruct ch; in_channels).
  destruct (wf_channel_known k _ Hwf Hc) as [x Hx].
  exists x. split; [exact Hx|]. split; [exact (Hr _ _ Hx)|].
  rewrite (displayed_pair _ k x) by (apply Hviews; assumption).
  rewrite clamp_id by exact (Hr _ _ Hx). reflexivity.
Qed.

Lemma gui_store_in_range_and_shown_witness :
  exists x,
    stored (channel_key WRIST)
      (final_state (deliver (SliderMoved WRIST 250) init_kiosk)) = Some x
    /\ 0 <= x <= 100
    /\ displayed (channel_key WRIST)
         (final_state (deliver (SliderMoved WRIST 250) init_kiosk)) = [x; x].
Proof.
  apply (gui_store_in_range_and_shown WRIST
           (final_state (deliver (SliderMoved WRIST 250) init_kiosk))).
  apply (gui_reachable_event (SliderMoved WRIST 250) init_kiosk).
  - exact gui_reachable_init.
  - vm_compute. reflexivity.
Defined.

(** X15: no event the operator or the battery timer can cause makes a
    handler raise: from every state the operator can reach, every event is
    handled to the end and leads to such a state again. *)
Theorem gui_event_never_raises (e : GuiEvent) (k : RobotKiosk) :
  gui_reachable k ->
  exists k', deliver e k = Returns tt k' /\ gui_reachable k'.
Proof.
  intros Hreach.
  destruct (deliver_gui_inv e k (gui_reachable_inv k Hreach)) as (k' & Hrun & _).
  exists k'. split; [exact Hrun|].
  exact (gui_reachable_event e k k' Hreach Hrun).
Qed.

Lemma gui_event_never_raises_witness :
  exists k', deliver (SliderMoved ARM 250) init_kiosk = Returns tt k'
    /\ gui_reachable k'.
Proof.
  apply (gui_event_never_raises (SliderMoved ARM 250) init_kiosk).
  exact gui_reachable_init.
Defined.

(** ** Runs of battery ticks *)

Lemma next_percent_step (d : BatteryDraws) (b : Z) :
  valid_draws d -> 0 <= b <= 100 ->
  b - 1 <= next_percent d b <= Z.max b 44.
Proof.
  intros (Hi & _ & _ & Hr) Hb. unfold next_percent. cbv zeta.
  pose proof (random_choice_decrement _ Hi) as Hc.
  destruct (recharges d _) eqn:E; [|lia].
  unfold recharges in E. apply andb_true_iff in E as [E _].
  apply Z.ltb_lt in E. lia.
Qed.

(** X16: over any run of battery ticks the percent stays in 0..100, falls
    by at most one per tick, and never climbs above the larger of its
    starting value and 44: a recharge happens below 20 and adds at most 25,
    so a battery that has fallen under 44 never shows more than 44 again. *)
Theorem battery_ticks_bounds (draws : list BatteryDraws) (k : RobotKiosk) :
  0 <= batt_val k <= 100 -> Forall valid_draws draws ->
  exists k', battery_ticks draws k = Returns tt k'
    /\ 0 <= batt_val k' <= 100
    /\ batt_val k - Z.of_nat (length draws) <= batt_val k'
    /\ batt_val k' <= Z.max (batt_val k) 44.
Proof.
  intros Hb Hall. revert k Hb.
  induction Hall as [|d draws Hd _ IH]; intros k Hb.
  - exists k. split; [reflexivity|]. cbn. lia.
  - unfold battery_ticks. cbn [for_each]. unfold mbind, M_bind.
    rewrite simulate_battery_returns. cbv zeta.
    set (k1 := with_batt_large_label _ _).
    assert (Hk1 : batt_val k1 = next_percent d (batt_val k)) by reflexivity.
    pose proof (next_percent_range d (batt_val k)) as Hr.
    pose proof (next_percent_step d (batt_val k) Hd Hb) as Hs.
    destruct (IH k1) as (k' & Hrun & Hr' & Hlo & Hhi); [rewrite Hk1; exact Hr|].
    exists k'. split; [exact Hrun|]. split; [exact Hr'|].
    rewrite Hk1 in Hlo, Hhi. cbn [length]. lia.
Qed.

Lemma battery_ticks_bounds_witness :
  exists k',
    battery_ticks
      [Build_BatteryDraws 2 0.9 10; Build_BatteryDraws 2 0.1 25;
       Build_BatteryDraws 0 0.1 8]
      (with_batt_val (fun _ => 20) init_kiosk) = Returns tt k'
    /\ 0 <= batt_val k' <= 100
    /\ batt_val (with_batt_val (fun _ => 20) init_kiosk)
       - Z.of_nat
           (length
              [Build_BatteryDraws 2 0.9 10; Build_BatteryDraws 2 0.1 25;
               Build_BatteryDraws 0 0.1 8])
       <= batt_val k'
    /\ batt_val k' <= Z.max (batt_val (with_batt_val (fun _ => 20) init_kiosk)) 44.
Proof.
  apply (battery_ticks_bounds
           [Build_BatteryDraws 2 0.9 10; Build_BatteryDraws 2 0.1 25;
            Build_BatteryDraws 0 0.1 8]
           (with_batt_val (fun _ => 20) init_kiosk)).
  - simpl. lia.
  - repeat constructor; try (vm_compute; reflexivity); simpl; lia.
Defined.

(** ** Uptime and connection *)

Lemma uptime_iter (n : nat) (t : Telemetry) :
  uptime_seconds (Nat.iter n _update_uptime t) = uptime_seconds t + Z.of_nat n.
Proof.
  induction n as [|n IH]; [cbn; lia|].
  rewrite Nat2Z.inj_succ, Nat.iter_succ. unfold _update_uptime at 1.
  cbn [uptime_seconds]. rewrite IH. lia.
Qed.

(** X17: after the uptime timer has fired [3600 * h + 60 * m + s] times
    since start-up, with [m] and [s] below 60, the uptime label reads
    [h], [m] and [s], each on two digits at least: the clock shows the
    number of ticks, never resets and never skips. *)
Theorem uptime_clock (h m s : Z) :
  0 <= h -> 0 <= m < 60 -> 0 <= s < 60 ->
  let ticks := Z.to_nat (3600 * h + 60 * m + s) in
  let t := Nat.iter ticks _update_uptime init_telemetry in
  uptime_seconds t = 3600 * h + 60 * m + s
  /\ uptime_label t =
     "Uptime: " +:+ format_02d h +:+ ":" +:+ format_02d m +:+ ":" +:+ format_02d s.
Proof.
  intros Hh Hm Hs ticks t. subst t.
  assert (Hsec : uptime_seconds (Nat.iter ticks _update_uptime init_telemetry)
                 = 3600 * h + 60 * m + s).
  { rewrite uptime_iter. subst ticks. cbn [uptime_seconds init_telemetry]. lia. }
  split; [exact Hsec|].
  destruct ticks as [|n] eqn:E.
  - (* no tick yet: the label of [__init__] *)
    assert (h = 0 /\ m = 0 /\ s = 0) as (-> & -> & ->) by lia.
    reflexivity.
  - rewrite Nat.iter_succ in *. unfold _update_uptime at 1 in Hsec.
    unfold _update_uptime at 1.
    cbn [uptime_seconds uptime_label] in *.
    rewrite Hsec.
    replace ((3600 * h + 60 * m + s) / 3600) with h
      by (apply (Z.div_unique _ _ h (60 * m + s)); lia).
    replace ((3600 * h + 60 * m + s) mod 3600) with (60 * m + s)
      by (apply (Z.mod_unique _ _ h (60 * m + s)); lia).
    replace ((60 * m + s) / 60) with m
      by (apply (Z.div_unique _ _ m s); lia).
    replace ((3600 * h + 60 * m + s) mod 60) with s
      by (apply (Z.mod_unique _ _ (60 * h + m) s); lia).
    reflexivity.
Qed.

Lemma uptime_clock_witness :
  uptime_seconds
    (Nat.iter (Z.to_nat (3600 * 1 + 60 * 1 + 1)) _update_uptime init_telemetry)
  = 3600 * 1 + 60 * 1 + 1
  /\ uptime_label
       (Nat.iter (Z.to_nat (3600 * 1 + 60 * 1 + 1)) _update_uptime init_telemetry)
     = "Uptime: " +:+ format_02d 1 +:+ ":" +:+ format_02d 1 +:+ ":" +:+ format_02d 1.
Proof.
  apply (uptime_clock 1 1 1); lia.
Defined.

Lemma toggle_conns_snoc (draws : list Z) (ss : Z) (t : Telemetry) :
  toggle_conns (draws ++ [ss]) t = _toggle_conn ss (toggle_conns draws t).
Proof. unfold toggle_conns. rewrite fold_left_app. reflexivity. Qed.

Lemma toggle_conns_state (draws : list Z) (t : Telemetry) :
  conn_state (toggle_conns draws t)
  = xorb (conn_state t) (Nat.odd (length draws)).
Proof.
  induction draws as [|ss draws IH] using rev_ind.
  - cbn. destruct (conn_state t); reflexivity.
  - rewrite toggle_conns_snoc, length_app, Nat.add_1_r, Nat.odd_succ.
    rewrite <- Nat.negb_odd.
    unfold _toggle_conn. rewrite IH.
    destruct (conn_state t), (Nat.odd (length draws)); reflexivity.
Qed.

(** X18: the connection timer flips the state at every tick, so after a
    run of ticks the kiosk is connected exactly when the run has flipped
    the starting state an odd number of times; both WiFi texts then
    describe that state, and when it is connected both carry the signal
    strength drawn at the last tick. *)
Theorem toggle_conns_labels (draws : list Z) (ss : Z) (t : Telemetry) :
  let t' := toggle_conns (draws ++ [ss]) t in
  conn_state t' = xorb (conn_state t) (Nat.even (length draws))
  /\ (conn_state t' = true ->
      conn_label t' = "WiFi: connected (RSSI " +:+ pretty ss +:+ " dBm)"
      /\ wifi_entry t' = "WiFi: Connected (RSSI " +:+ pretty ss +:+ " dBm)")
  /\ (conn_state t' = false ->
      conn_label t' = "WiFi: disconnected"
      /\ wifi_entry t' = "WiFi: Not connected (simulated)")
  /\ uptime_seconds t' = uptime_seconds t.
Proof.
  cbv zeta. rewrite toggle_conns_snoc.
  assert (Hup : forall l, uptime_seconds (toggle_conns l t) = uptime_seconds t).
  { induction l as [|x l IH] using rev_ind; [reflexivity|].
    rewrite toggle_conns_snoc. unfold _toggle_conn.
    destruct (negb _); cbn; exact IH. }
  pose proof (toggle_conns_state draws t) as Hst.
  unfold _toggle_conn. rewrite Hst, <- Nat.negb_odd.
  destruct (conn_state t), (Nat.odd (length draws)); cbn;
    repeat split; try discriminate; try reflexivity; apply Hup.
Qed.

(** ** Painting *)

(** The checks below are made for each of the 101 values a gauge can hold. *)
Lemma span_angle_checks (P : Z -> bool) :
  forallb P (seqZ 0 101) = true -> forall v, 0 <= v <= 100 -> P v = true.
Proof.
  intros Hall v Hv. rewrite forallb_forall in Hall.
  apply Hall, list_elem_of_In, elem_of_seqZ. lia.
Qed.

(** X19: for every value a gauge can hold, [paintEvent] draws, inside the
    widget rectangle shrunk by 10 on each side, a circle, an arc that starts
    at 12 o'clock and spans clockwise between nothing (exactly at 0) and a
    full turn (exactly at 100), and the label with the value.  The span is
    [57.6 * value] sixteenths of a degree rounded down, or one sixteenth
    less than that (the float product falls just short at 35 and 70), and a
    larger value always gives a longer arc. *)
Theorem paintEvent_arc (r : QRect.t) (w : CircularProgress.t) :
  0 <= CircularProgress.value w <= 100 ->
  let v := CircularProgress.value w in
  let rect := QRect.adjusted 10 10 (-10) (-10) r in
  exists span,
    paintEvent r w =
      [DrawEllipse rect;
       DrawArc rect 1440 span;
       DrawText rect (CircularProgress.label w +:+ newline +:+ pretty v +:+ "%")]
    /\ - 5760 <= span <= 0
    /\ (span = 0 <-> v = 0)
    /\ (span = - 5760 <-> v = 100)
    /\ - (576 * v / 10) <= span <= - (576 * v / 10) + 1
    /\ (forall v', 0 <= v' < v -> span < span_angle_of v').
Proof.
  intros Hv v rect. exists (span_angle_of v). split; [reflexivity|].
  pose (P := fun v : Z =>
          let s := span_angle_of v in
          (- 5760 <=? s) && (s <=? 0)
          && Bool.eqb (s =? 0) (v =? 0)
          && Bool.eqb (s =? - 5760) (v =? 100)
          && (- (576 * v / 10) <=? s) && (s <=? - (576 * v / 10) + 1)
          && forallb (fun v' => s <? span_angle_of v') (seqZ 0 v)).
  assert (Hchk : P v = true).
  { apply (span_angle_checks P); [vm_compute; reflexivity | exact Hv]. }
  subst P. cbv beta zeta in Hchk.
  repeat (apply andb_true_iff in Hchk as [Hchk ?]).
  repeat match goal with
  | H : (_ <=? _) = true |- _ => apply Z.leb_le in H
  | H : Bool.eqb _ _ = true |- _ => apply Bool.eqb_prop in H
  end.
  split; [lia|]. split.
  { rewrite <- Z.eqb_eq, <- (Z.eqb_eq v 0). split; congruence. }
  split.
  { rewrite <- Z.eqb_eq, <- (Z.eqb_eq v 100). split; congruence. }
  split; [lia|].
  intros v' Hv'.
  match goal with
  | H : forallb _ _ = true |- _ => rewrite forallb_forall in H;
      apply Z.ltb_lt, H, list_elem_of_In, elem_of_seqZ
  end. lia.
Qed.

Lemma paintEvent_arc_witness :
  exists span,
    paintEvent (QRect.mk 0 0 129 129)
      (CircularProgress.setValue 35 (CircularProgress.new "ARM")) =
      [DrawEllipse (QRect.adjusted 10 10 (-10) (-10) (QRect.mk 0 0 129 129));
       DrawArc (QRect.adjusted 10 10 (-10) (-10) (QRect.mk 0 0 129 129)) 1440 span;
       DrawText (QRect.adjusted 10 10 (-10) (-10) (QRect.mk 0 0 129 129))
         (CircularProgress.label
            (CircularProgress.setValue 35 (CircularProgress.new "ARM"))
          +:+ newline
          +:+ pretty
                (CircularProgress.value
                   (CircularProgress.setValue 35 (CircularProgress.new "ARM")))
          +:+ "%")]
    /\ - 5760 <= span <= 0
    /\ (span = 0 <->
        CircularProgress.value
          (CircularProgress.setValue 35 (CircularProgress.new "ARM")) = 0)
    /\ (span = - 5760 <->
        CircularProgress.value
          (CircularProgress.setValue 35 (CircularProgress.new "ARM")) = 100)
    /\ - (576 * CircularProgress.value
                  (CircularProgress.setValue 35 (CircularProgress.new "ARM")) / 10)
       <= span
       <= - (576 * CircularProgress.value
                     (CircularProgress.setValue 35 (CircularProgress.new "ARM")) / 10)
          + 1
    /\ (forall v',
          0 <= v' < CircularProgress.value
                      (CircularProgress.setValue 35 (CircularProgress.new "ARM")) ->
          span < span_angle_of v').
Proof.
  apply (paintEvent_arc (QRect.mk 0 0 129 129)
           (CircularProgress.setValue 35 (CircularProgress.new "ARM"))).
  vm_compute. split; discriminate.
Defined.


(** ** Committing from the dial and from a slider *)

(** X20: when the stored values fit a C [int], whatever position the dial
    is left at, accepting the dialog returns, stores that position clamped
    to 0..100 (the dial cannot leave its range), shows it on the gauge and
    the slider of the channel, and calls [_set_motor] once. *)
Theorem dial_commit_last_position (c : string) (v : Z)
    (pre post : list ModalEvent) (k : RobotKiosk) :
  kiosk_wf k -> store_fits k -> c ∈ channels -> Forall is_timeout post ->
  exists k',
    _open_dial c (pre ++ DialTurned v :: post) Accepted k = Returns tt k'
    /\ stored c k' = Some (clamp 0 100 v)
    /\ displayed c k' = [clamp 0 100 v; clamp 0 100 v]
    /\ set_motor_calls k' = (set_motor_calls k ++ [(c, clamp 0 100 v)])%list.
Proof.
  intros Hwf Hfits Hc Hpost.
  set (events := (pre ++ DialTurned v :: post)%list).
  destruct (ticks_after_motor_side events k) as [Hside _].
  pose proof (motor_side_wf _ _ Hside Hwf) as Hwf2.
  pose proof (motor_side_fits _ _ Hside Hfits) as Hfits2.
  rewrite open_dial_unfold by (apply open_dial_initial_fits; auto).
  cbv zeta. rewrite decide_True by reflexivity.
  unfold events at 1.
  rewrite dial_after_last_turn by (exact Hpost || apply dial_new_range).
  destruct (set_motor_spec c (clamp 0 100 v) _ Hwf2 Hfits2
              (fun _ => fits_c_int_clamp v)) as (k' & Hrun & Hsm).
  pose proof (set_motor_post_same c _ _ k' Hwf2 Hc Hsm) as Hst.
  exists k'. split; [exact Hrun|]. split; [exact Hst|]. split.
  - rewrite (displayed_pair c k' (clamp 0 100 v))
      by (apply (post_views _ _ _ _ Hsm); assumption).
    unfold clamp. f_equal; [lia | f_equal; lia].
  - rewrite (post_calls _ _ _ _ Hsm). unfold motor_side in Hside.
    injection Hside as _ _ _ _ _ _ _ Hl. rewrite Hl. reflexivity.
Qed.

Lemma dial_commit_last_position_witness :
  exists k',
    _open_dial "TENTACLE" ([DialTurned 5] ++ DialTurned 300 :: []) Accepted
      init_kiosk = Returns tt k'
    /\ stored "TENTACLE" k' = Some (clamp 0 100 300)
    /\ displayed "TENTACLE" k' = [clamp 0 100 300; clamp 0 100 300]
    /\ set_motor_calls k'
       = (set_motor_calls init_kiosk ++ [("TENTACLE", clamp 0 100 300)])%list.
Proof.
  apply (dial_commit_last_position "TENTACLE" 300 [DialTurned 5] [] init_kiosk).
  - exact init_kiosk_wf.
  - exact init_kiosk_fits.
  - in_channels.
  - constructor.
Defined.

Lemma snoc_neq {A} (l : list A) (x : A) : (l ++ [x])%list <> l.
Proof.
  intros H. apply (f_equal length) in H. rewrite length_app in H.
  cbn in H. lia.
Qed.

(** X21: moving the slider of a channel to a position stores that position,
    bounded to 0..100, for the channel and shows it on its gauge and slider,
    and leaves the other channels alone; [_set_motor] is called exactly
    when the bounded position differs from the value already stored. *)
Theorem slider_moved_stores_position (ch : Channel) (pos : Z) (k : RobotKiosk) :
  gui_reachable k ->
  exists k', slider_moved ch pos k = Returns tt k'
    /\ stored (channel_key ch) k' = Some (clamp 0 100 pos)
    /\ displayed (channel_key ch) k' = [clamp 0 100 pos; clamp 0 100 pos]
    /\ (forall ch', ch' <> ch ->
        stored (channel_key ch') k' = stored (channel_key ch') k)
    /\ (set_motor_calls k' = set_motor_calls k <->
        stored (channel_key ch) k = Some (clamp 0 100 pos)).
Proof.
  intros Hreach.
  pose proof (gui_reachable_inv k Hreach) as Hinv.
  pose proof Hinv as [Hwf Hub Hr Hviews].
  set (c := channel_key ch).
  assert (Hc : c ∈ channels) by (destruct ch; in_channels).
  destruct (wf_channel_known k c Hwf Hc) as [x Hx].
  pose proof (Hviews c x Hc Hx) as [_ Hsl].
  pose proof (Hr c x Hx) as Hxr.
  assert (Hsl_of : exists sl, slider_of c k = Some sl
            /\ slider_range sl /\ QAbstractSlider.signalsBlocked sl = false).
  { destruct Hwf, Hub as (? & ? & ?). destruct ch; cbn; eauto. }
  destruct Hsl_of as (sl & Hof & [Hlo Hhi] & Hunb).
  rewrite Hof in Hsl. cbn in Hsl. injection Hsl as Hval.
  rewrite clamp_id in Hval by exact Hxr.
  assert (Hbound : QAbstractSlider.bound sl pos = clamp 0 100 pos).
  { unfold QAbstractSlider.bound, clamp. rewrite Hlo, Hhi. reflexivity. }
  destruct (slider_moved_gui_inv ch pos k Hinv) as (k' & Hrun & Hinv').
  exists k'. split; [exact Hrun|].
  revert Hrun.
  unfold slider_moved. fold c. unfold mbind, M_bind, get, modify.
  rewrite Hof. unfold QAbstractSlider.emitted. rewrite Hunb, Hbound, Hval.
  set (k1 := with_slider_of c (QAbstractSlider.set_value pos) k).
  assert (Hm1 : motors k1 = motors k) by (destruct ch; reflexivity).
  assert (Hl1 : set_motor_calls k1 = set_motor_calls k)
    by (destruct ch; reflexivity).
  assert (Hwf1 : kiosk_wf k1).
  { destruct Hwf. destruct ch; split; assumption. }
  assert (Hshown : forall y, stored c k' = Some y ->
            displayed c k' = [clamp 0 100 y; clamp 0 100 y]).
  { intros y Hy. apply displayed_pair, (gui_views _ Hinv'); assumption. }
  assert (Hidem : clamp 0 100 (clamp 0 100 pos) = clamp 0 100 pos)
    by (unfold clamp; lia).
  destruct (Z.eqb_spec (clamp 0 100 pos) x) as [Hsame | Hdiff].
  - intros Hrun. injection Hrun as <-.
    assert (Hst : stored c k1 = Some (clamp 0 100 pos)).
    { unfold stored. rewrite Hm1, Hsame. exact Hx. }
    split; [exact Hst|].
    split; [rewrite (Hshown _ Hst), Hidem; reflexivity|].
    split; [intros ch' _; unfold stored; rewrite Hm1; reflexivity|].
    rewrite Hl1, Hsame. split; [intros _; exact Hx | reflexivity].
  - intros Hrun.
    pose proof (set_motor_returned c _ k1 k' Hwf1 Hrun) as Hpost.
    assert (Hst : stored c k' = Some (clamp 0 100 pos)).
    { apply (set_motor_post_same c _ k1 k' Hwf1 Hc Hpost). }
    split; [exact Hst|].
    split; [rewrite (Hshown _ Hst), Hidem; reflexivity|].
    split.
    + intros ch' Hne.
      rewrite (set_motor_post_other c (channel_key ch') _ k1 k')
        by (exact Hpost
            || (subst c; destruct ch, ch'; cbn; first [discriminate | congruence])).
      unfold stored. rewrite Hm1. reflexivity.
    + rewrite (post_calls _ _ _ _ Hpost), Hl1. split.
      * intros Heq. exfalso. exact (snoc_neq _ _ Heq).
      * intros Heq. exfalso. fold c in Heq. congruence.
Qed.

Lemma slider_moved_stores_position_witness :
  exists k', slider_moved WRIST 250 init_kiosk = Returns tt k'
    /\ stored (channel_key WRIST) k' = Some (clamp 0 100 250)
    /\ displayed (channel_key WRIST) k' = [clamp 0 100 250; clamp 0 100 250]
    /\ (forall ch', ch' <> WRIST ->
        stored (channel_key ch') k' = stored (channel_key ch') init_kiosk)
    /\ (set_motor_calls k' = set_motor_calls init_kiosk <->
        stored (channel_key WRIST) init_kiosk = Some (clamp 0 100 250)).
Proof.
  apply (slider_moved_stores_position WRIST 250 init_kiosk).
  exact gui_reachable_init.
Defined.

(** ** What an overflowing write leaves *)

(** X22: a write to a channel of a value that does not fit a C [int] raises
    [OverflowError] in the middle of the fan-out: the value is stored and
    the gauge of the channel shows its clamp, but the slider of the channel
    keeps the value it had, and a slider is left with its signals blocked,
    because the statement that unblocks it is never reached. *)
Theorem set_motor_overflow_leaves (c : string) (v : Z) (k : RobotKiosk) :
  kiosk_wf k -> c ∈ channels -> fits_c_int v = false ->
  exists k', _set_motor c v k = Raises OverflowError k'
    /\ stored c k' = Some v
    /\ CircularProgress.value <$> gauge_of c k' = Some (clamp 0 100 v)
    /\ QAbstractSlider.value <$> slider_of c k'
       = QAbstractSlider.value <$> slider_of c k
    /\ ~ sliders_unblocked k'
    /\ kiosk_wf k'.
Proof.
  intros Hwf Hc Hv.
  destruct (set_motor_run c v k Hwf) as (a & w & t & Ha & Hw & Ht & Heq).
  destruct (store_write_frame c v k)
    as (_ & _ & _ & Hsa & Hsw & Hst & _).
  assert (Hcv : motors (store_write c v (log_call c v k)) !! c = Some v).
  { destruct (wf_channel_known k c Hwf Hc) as [x Hx]. unfold stored in Hx.
    rewrite store_write_lookup, Hx, decide_True by reflexivity. reflexivity. }
  rewrite Heq. unfold fan_out_outcome.
  assert (Hwf' : forall fa fw ft,
     slider_range (fa (s_arm k)) -> slider_range (fw (s_wrist k)) ->
     slider_range (ft (s_tent k)) ->
     kiosk_wf
       (with_s_tent ft (with_s_wrist fw (with_s_arm fa
          (gauges_set a w t (store_write c v (log_call c v k))))))).
  { intros fa fw ft Hra Hrw Hrt.
    split; cbn; rewrite ?Ha, ?Hw, ?Ht, ?Hsa, ?Hsw, ?Hst; eauto. }
  destruct Hwf as [_ _ _ Hra Hrw Hrt].
  channel_cases Hc.
  - assert (a = v) as -> by congruence. rewrite Hv. cbn [negb].
    eexists. split; [reflexivity|]. split; [exact Ha|].
    split; [reflexivity|]. split; [cbn; rewrite Hsa; reflexivity|]. split.
    + intros (Hb & _). cbn in Hb. discriminate.
    + apply (Hwf' (QAbstractSlider.blockSignals true) id id); assumption.
  - assert (w = v) as -> by congruence. rewrite Hv.
    destruct (fits_c_int a); cbn [negb].
    + eexists. split; [reflexivity|]. split; [exact Hw|].
      split; [reflexivity|]. split; [cbn; rewrite Hsw; reflexivity|]. split.
      * intros (_ & Hb & _). cbn in Hb. discriminate.
      * apply (Hwf' (synced a) (QAbstractSlider.blockSignals true) id);
          assumption.
    + eexists. split; [reflexivity|]. split; [exact Hw|].
      split; [reflexivity|]. split; [cbn; rewrite Hsw; reflexivity|]. split.
      * intros (Hb & _). cbn in Hb. discriminate.
      * apply (Hwf' (QAbstractSlider.blockSignals true) id id); assumption.
  - assert (t = v) as -> by congruence. rewrite Hv.
    destruct (fits_c_int a); cbn [negb]; [destruct (fits_c_int w); cbn [negb]|].
    + eexists. split; [reflexivity|]. split; [exact Ht|].
      split; [reflexivity|]. split; [cbn; rewrite Hst; reflexivity|]. split.
      * intros (_ & _ & Hb). cbn in Hb. discriminate.
      * apply (Hwf' (synced a) (synced w) (QAbstractSlider.blockSignals true));
          assumption.
    + eexists. split; [reflexivity|]. split; [exact Ht|].
      split; [reflexivity|]. split; [cbn; rewrite Hst; reflexivity|]. split.
      * intros (_ & Hb & _). cbn in Hb. discriminate.
      * apply (Hwf' (synced a) (QAbstractSlider.blockSignals true) id);
          assumption.
    + eexists. split; [reflexivity|]. split; [exact Ht|].
      split; [reflexivity|]. split; [cbn; rewrite Hst; reflexivity|]. split.
      * intros (Hb & _). cbn in Hb. discriminate.
      * apply (Hwf' (QAbstractSlider.blockSignals true) id id); assumption.
Qed.

Lemma set_motor_overflow_leaves_witness :
  exists k', _set_motor "ARM" 2147483648 init_kiosk = Raises OverflowError k'
    /\ stored "ARM" k' = Some 2147483648
    /\ CircularProgress.value <$> gauge_of "ARM" k'
       = Some (clamp 0 100 2147483648)
    /\ QAbstractSlider.value <$> slider_of "ARM" k'
       = QAbstractSlider.value <$> slider_of "ARM" init_kiosk
    /\ ~ sliders_unblocked k'
    /\ kiosk_wf k'.
Proof.
  apply (set_motor_overflow_leaves "ARM" 2147483648 init_kiosk).
  - exact init_kiosk_wf.
  - in_channels.
  - reflexivity.
Defined.
